(** * Blazer: the low-level B2 client ([base]) and its retry loop ([retry])

    A shallow embedding of the parts of the Go sources that decide the
    behaviour of the error classifier, the transport wrapper, the
    deferred-hash stream filter, the large-file session bookkeeping and the
    retry harness, followed by the properties proved about them.

    Conventions of the embedding:
    - a Go [int], [int64] or [time.Duration] is a [Z]; arithmetic that can
      leave the 64-bit range is wrapped with [GoInt.int64], a [uint] with
      [GoInt.uint64];
    - a Go [error] interface value is an [option error]: [None] is [nil];
    - a run-time panic (slice or index out of range) is an explicit outcome;
    - what the network, the wrapped reader, the context, the random number
      generator and Go's randomised map iteration decide is passed in as an
      argument; so is the result of [retry.Jitter], a [float64] computation
      on a random number. *)

From Stdlib Require Import ZArith Lia.
From stdpp Require Import gmap strings list fin_maps pretty.

(** ** Machine integers *)

Module GoInt.
Local Open Scope Z_scope.

(** [int64(z)]: two's complement wrap-around to 64 bits. *)
Definition int64 (z : Z) : Z := (z + 2 ^ 63) mod 2 ^ 64 - 2 ^ 63.

(** [uint(z)] on a 64-bit platform. *)
Definition uint64 (z : Z) : Z := z mod 2 ^ 64.

Definition in_int64 (z : Z) : Prop := - 2 ^ 63 <= z < 2 ^ 63.

End GoInt.

(** ** Package [base] *)

Module Base.
Local Open Scope Z_scope.
Import GoInt.

(** *** Errors *)

(** [type b2err struct]. *)
Record b2err : Type := mk_b2err {
  msg : string;
  method : string;
  retry : Z;
  code : Z;
  msgCode : string
}.

(** The dynamic values an [error] interface holds in this package:
    a [b2err]; the two sentinels of package [context]; an
    [x509.UnknownAuthorityError]; an error with an [Unwrap] method around
    another one (a [tls.CertificateVerificationError], a [%w] of
    [fmt.Errorf]); and any other error, known only by its text. *)
Inductive error : Type :=
| B2Err (e : b2err)
| Canceled
| DeadlineExceeded
| UnknownAuthorityError (text : string)
| WrapError (text : string) (inner : error)
| PlainError (text : string).

(** [func (e b2err) Error() string]. *)
Definition b2err_Error (e : b2err) : string :=
  if String.eqb (method e) ""
  then "b2 error: " +:+ msg e
  else method e +:+ ": " +:+ pretty (code e) +:+ ": " +:+ msg e.

(** The [Error()] method of an [error] value. *)
Definition Error (err : error) : string :=
  match err with
  | B2Err e => b2err_Error e
  | Canceled => "context canceled"
  | DeadlineExceeded => "context deadline exceeded"
  | UnknownAuthorityError text => text
  | WrapError text _ => text
  | PlainError text => text
  end.

(** [type ErrAction int], with its four constants. *)
Inductive ErrAction : Type :=
| ReAuthenticate
| AttemptNewUpload
| Retry
| Punt.

(** The type assertion [err.(b2err)]. *)
Definition as_b2err (err : option error) : option b2err :=
  match err with
  | Some (B2Err e) => Some e
  | _ => None
  end.

(** [func Action(err error) ErrAction]. *)
Definition Action (err : option error) : ErrAction :=
  match as_b2err err with
  | None => Punt
  | Some e =>
    if retry e >? 0 then Retry
    else if (code e >=? 500) && (code e <? 600) &&
            (String.eqb (method e) "b2_upload_file" || String.eqb (method e) "b2_upload_part")
    then AttemptNewUpload
    else if code e =? 401 then
      if String.eqb (method e) "b2_authorize_account" then Punt
      else if String.eqb (method e) "b2_upload_file" || String.eqb (method e) "b2_upload_part"
      then AttemptNewUpload
      else ReAuthenticate
    else if code e =? 400 then
      if String.eqb (method e) "b2_upload_file" &&
         String.prefix "more than one upload using auth token" (msg e)
      then AttemptNewUpload
      else Punt
    else if code e =? 408 then AttemptNewUpload
    else if (code e =? 429) || (code e =? 500) || (code e =? 503) then Retry
    else Punt
  end.

(** [func MaxReuploads(err error) uint]. *)
Definition MaxReuploads (err : option error) : Z :=
  match as_b2err err with
  | None => 5
  | Some e =>
    if String.eqb (method e) "b2_upload_file" || String.eqb (method e) "b2_upload_part"
    then 5 else 0
  end.

(** [func MaxRetries(err error) uint]. *)
Definition MaxRetries (err : option error) : Z :=
  match as_b2err err with
  | None => 0
  | Some e =>
    if String.eqb (method e) "b2_upload_file" || String.eqb (method e) "b2_upload_part"
    then 20
    else if String.eqb (method e) "b2_download_file_by_id" ||
            String.eqb (method e) "b2_download_file_by_name"
    then 20
    else 5
  end.

(** *** The transport wrapper *)

(** [errors.As(err, &x509.UnknownAuthorityError{})]: the first error of the
    [Unwrap] chain that is an [x509.UnknownAuthorityError]. *)
Fixpoint errors_As_UnknownAuthority (err : error) : bool :=
  match err with
  | UnknownAuthorityError _ => true
  | WrapError _ inner => errors_As_UnknownAuthority inner
  | _ => false
  end.

(** The [switch err.(type)] on [x509.UnknownAuthorityError]. *)
Definition is_UnknownAuthority (err : error) : bool :=
  match err with
  | UnknownAuthorityError _ => true
  | _ => false
  end.

(** [func makeNetRequest(ctx, req, rt)], given the pair of a response and an
    error that [rt.RoundTrip(req)] returned. [Resp] is the type of the
    response a non-nil pointer leads to, [None] the nil pointer. *)
Definition makeNetRequest {Resp : Type}
    (roundTrip : option Resp * option error) : option Resp * option error :=
  let '(resp, err) := roundTrip in
  match err with
  | None => (resp, None)
  | Some Canceled | Some DeadlineExceeded => (None, err)
  | Some e =>
    if is_UnknownAuthority e then (None, err)
    else if errors_As_UnknownAuthority e then (None, err)
    else (None, Some (B2Err {| msg := Error e; method := ""; retry := 1;
                               code := 0; msgCode := "" |}))
  end.

(** *** The account session *)

(** [type b2Options struct]. [transport] names the [http.RoundTripper], [None]
    is the nil interface. *)
Record b2Options : Type := mk_b2Options {
  transport : option string;
  failSomeUploads : bool;
  expireTokens : bool;
  capExceeded : bool;
  apiBase : string;
  userAgent : string
}.

(** [type B2 struct]. The [opts] pointer is followed: the record holds the
    options it points to. *)
Record B2 : Type := mk_B2 {
  accountID : string;
  authToken : string;
  apiURI : string;
  s3URI : string;
  downloadURI : string;
  minPartSize : Z;
  opts : b2Options;
  bucket : string;
  pfx : string
}.

(** [func (b *B2) Update(n *B2)]: the receiver after the call. *)
Definition Update (b n : B2) : B2 :=
  {| accountID := accountID n;
     authToken := authToken n;
     apiURI := apiURI n;
     s3URI := s3URI b;
     downloadURI := downloadURI n;
     minPartSize := minPartSize n;
     opts := opts n;
     bucket := bucket b;
     pfx := pfx b |}.

(** *** The deferred-hash filter *)

(** Outcome of code that can panic. *)
Inductive outcome (A : Type) : Type :=
| Panicked
| Returned (a : A).
Arguments Panicked {A}.
Arguments Returned {A} a.

(** [type keepFinalBytes struct], without the wrapped reader: what that
    reader delivers is an argument of [Read]. [sha] is the [[40]byte] array. *)
Record keepFinalBytes : Type := mk_keepFinalBytes {
  remain : Z;
  sha : list Byte.byte
}.

(** A slice expression [s[lo:hi]] on an operand of capacity [cap] panics
    unless [0 <= lo <= hi <= cap]. *)
Definition slice_in_range (lo hi cap : Z) : bool :=
  (0 <=? lo) && (lo <=? hi) && (hi <=? cap).

(** The elements of [s[lo:hi]]. *)
Definition slice (s : list Byte.byte) (lo hi : Z) : list Byte.byte :=
  take (Z.to_nat (hi - lo)) (drop (Z.to_nat lo) s).

(** The array [dst] after [copy(dst[lo:hi], src)]: the built-in copies
    the smaller of the two lengths. *)
Definition copy_into (dst : list Byte.byte) (lo hi : Z) (src : list Byte.byte) : list Byte.byte :=
  let m := Nat.min (Z.to_nat (hi - lo)) (length src) in
  take (Z.to_nat lo) dst ++ take m src ++ drop (Z.to_nat lo + m) dst.

(** The four indices [ki], [ke], [pi], [pe] that [Read] computes when it
    reaches the copy, from [k.remain] and the count [n] of the inner read. *)
Definition Read_indices (remain n : Z) : Z * Z * Z * Z :=
  let pi := int64 (-40 + remain) in
  let pi := if pi <? 0 then 0 else pi in
  let pe := n in
  let ki := int64 (40 - remain) in
  let ki := if ki <? 0 then 0 else ki in
  let ke := int64 (int64 (n - remain) + 40) in
  (ki, ke, pi, pe).

(** [func (k *keepFinalBytes) Read(p []byte) (int, error)]. The inner
    [k.r.Read(p)] left [p] as the buffer and returned [(n, err)]; the result
    is the filter afterwards and the pair [Read] returns, or a panic. *)
Definition Read (k : keepFinalBytes) (p : list Byte.byte) (n : Z) (err : option error)
    : outcome (keepFinalBytes * (Z * option error)) :=
  if int64 (remain k - n) >? 40 then
    Returned ({| remain := int64 (remain k - n); sha := sha k |}, (n, err))
  else
    let '(ki, ke, pi, pe) := Read_indices (remain k) n in
    if slice_in_range ki ke 40 && slice_in_range pi pe (Z.of_nat (length p)) then
      Returned ({| remain := int64 (remain k - n);
                   sha := copy_into (sha k) ki ke (slice p pi pe) |}, (n, err))
    else Panicked.

(** One read of the wrapped reader, as the filter sees it: the buffer [p]
    after the read, the count and the error. *)
Record inner_read : Type := mk_inner_read {
  read_p : list Byte.byte;
  read_n : Z;
  read_err : option error
}.

(** The bytes that a read delivered: [p[:n]]. *)
Definition delivered (r : inner_read) : list Byte.byte :=
  take (Z.to_nat (read_n r)) (read_p r).

(** The contract of [io.Reader]: [0 <= n <= len(p)]. *)
Definition reader_contract (r : inner_read) : Prop :=
  0 <= read_n r <= Z.of_nat (length (read_p r)).

(** The filter after a sequence of reads, each going through [Read]. *)
Fixpoint Read_all (k : keepFinalBytes) (reads : list inner_read) : outcome keepFinalBytes :=
  match reads with
  | [] => Returned k
  | r :: rest =>
    match Read k (read_p r) (read_n r) (read_err r) with
    | Panicked => Panicked
    | Returned (k', _) => Read_all k' rest
    end
  end.

(** The zero value of [[40]byte]. *)
Definition zero_sha : list Byte.byte := replicate 40 Byte.x00.

(** [&keepFinalBytes{r: r, remain: size}]. *)
Definition new_keepFinalBytes (size : Z) : keepFinalBytes :=
  {| remain := size; sha := zero_sha |}.

(** The last 40 bytes of a stream, right-aligned in a zeroed 40-byte array. *)
Definition final_40 (stream : list Byte.byte) : list Byte.byte :=
  replicate (40 - length stream) Byte.x00 ++ drop (length stream - 40) stream.

(** *** Large files *)

(** [type LargeFile struct], without the session pointer [b2] and the mutex:
    every operation below is one critical section or takes no lock. *)
Record LargeFile : Type := mk_LargeFile {
  l_ID : string;
  l_size : Z;
  l_hashes : gmap Z string
}.

(** [type File struct], without [Info] and the session pointer. *)
Record File : Type := mk_File {
  File_Name : string;
  File_Size : Z;
  File_Status : string;
  File_Timestamp : Z * Z;
  File_ID : string
}.

(** [func millitime(t int64) time.Time], as the seconds and nanoseconds
    handed to [time.Unix]; Go's [/] and [%] truncate towards zero. *)
Definition millitime (t : Z) : Z * Z := (Z.quot t 1000, Z.rem t 1000 * 1000000).

(** The large file that [StartLargeFile] returns for the identifier that the
    service assigned. *)
Definition StartLargeFile (id : string) : LargeFile :=
  {| l_ID := id; l_size := 0; l_hashes := ∅ |}.

(** [func (f *File) CompileParts(size int64, seen map[int]string) *LargeFile]. *)
Definition CompileParts (f : File) (size : Z) (seen : gmap Z string) : LargeFile :=
  {| l_ID := File_ID f; l_size := size; l_hashes := seen |}.

(** What [makeRequest] does with the body of one [b2_upload_part] call: the
    reads that the HTTP client issues on the body, in order, and the error
    that [makeRequest] returns. *)
Record transfer : Type := mk_transfer {
  body_reads : list inner_read;
  transfer_err : option error
}.

(** [requestBody.getBody] hands [http.NoBody] to the client when the size is
    zero: the reader is then never read. *)
Definition reads_of_body (size : Z) (t : transfer) : list inner_read :=
  if size =? 0 then [] else body_reads t.

(** [func (fc *FileChunk) UploadPart(ctx, r, sha1, size, index) (int, error)]:
    the pair that is returned and the large file afterwards, or a panic of
    the filter while the body is read. *)
Definition UploadPart (l : LargeFile) (sha1 : string) (size index : Z) (t : transfer)
    : outcome ((Z * option error) * LargeFile) :=
  let deferred := String.eqb sha1 "hex_digits_at_end" in
  let filter :=
    if deferred then Read_all (new_keepFinalBytes size) (reads_of_body size t)
    else Returned (new_keepFinalBytes size) in
  match filter with
  | Panicked => Panicked
  | Returned k =>
    match transfer_err t with
    | Some err => Returned ((0, Some err), l)
    | None =>
      let sha1 := if deferred then String.string_of_list_byte (sha k) else sha1 in
      Returned ((size, None),
                {| l_ID := l_ID l;
                   l_size := int64 (l_size l + size);
                   l_hashes := <[index := sha1]> (l_hashes l) |})
    end
  end.

(** [b2types.FinishLargeFileRequest] and [b2types.FinishLargeFileResponse]. *)
Record FinishLargeFileRequest : Type := mk_FinishLargeFileRequest {
  req_ID : string;
  req_Hashes : list string
}.

Record FinishLargeFileResponse : Type := mk_FinishLargeFileResponse {
  resp_Name : string;
  resp_FileID : string;
  resp_Timestamp : Z;
  resp_Action : string
}.

(** The [for k, v := range l.hashes] loop of [FinishLargeFile] over the
    entries in the order in which the map yields them: the filled array, the
    error of the early return, or the panic of an index below zero. *)
Fixpoint fill_Hashes (Hashes : list string) (entries : list (Z * string))
    : outcome (error + list string) :=
  match entries with
  | [] => Returned (inr Hashes)
  | (k, v) :: rest =>
    if Z.of_nat (length Hashes) <? k then
      Returned (inl (PlainError ("b2_finish_large_file: invalid index " +:+ pretty k)))
    else if (0 <=? k - 1) && (k - 1 <? Z.of_nat (length Hashes)) then
      fill_Hashes (<[Z.to_nat (k - 1) := v]> Hashes) rest
    else Panicked
  end.

(** [func (l *LargeFile) FinishLargeFile(ctx)], a file or an error, for the
    iteration order [entries] of [l.hashes]; [send] is [makeRequest] for
    [b2_finish_large_file]. The second component lists the requests that
    were handed to [makeRequest]. *)
Definition FinishLargeFile (l : LargeFile) (entries : list (Z * string))
    (send : FinishLargeFileRequest → option error * FinishLargeFileResponse)
    : outcome (option File * option error) * list FinishLargeFileRequest :=
  match fill_Hashes (replicate (size (l_hashes l)) "") entries with
  | Panicked => (Panicked, [])
  | Returned (inl err) => (Returned (None, Some err), [])
  | Returned (inr Hashes) =>
    let b2req := {| req_ID := l_ID l; req_Hashes := Hashes |} in
    match send b2req with
    | (Some err, _) => (Returned (None, Some err), [b2req])
    | (None, b2resp) =>
      (Returned (Some {| File_Name := resp_Name b2resp;
                         File_Size := l_size l;
                         File_Timestamp := millitime (resp_Timestamp b2resp);
                         File_Status := resp_Action b2resp;
                         File_ID := resp_FileID b2resp |}, None), [b2req])
    end
  end.

(** An iteration order of a map: any arrangement of its entries. *)
Definition iteration_order (m : gmap Z string) (entries : list (Z * string)) : Prop :=
  entries ≡ₚ map_to_list m.

(** The error comes from one of the two upload calls. *)
Definition upload_method (e : b2err) : Prop :=
  method e = "b2_upload_file" ∨ method e = "b2_upload_part".

(** The two values that the [switch err] of [makeNetRequest] compares with:
    [context.Canceled] and [context.DeadlineExceeded]. *)
Definition is_context_error (err : error) : bool :=
  match err with
  | Canceled | DeadlineExceeded => true
  | _ => false
  end.

(** [makeRequest] returned during [UploadPart]: reading the body did not
    panic in the filter. Without the sentinel there is no filter. *)
Definition request_returned (sha1 : string) (size : Z) (t : transfer) : Prop :=
  if String.eqb sha1 "hex_digits_at_end"
  then ∃ k, Read_all (new_keepFinalBytes size) (reads_of_body size t) = Returned k
  else True.

(** The keys of a hash mapping are exactly [1 .. len], without a gap. *)
Definition dense (m : gmap Z string) : Prop :=
  ∀ k, is_Some (m !! k) ↔ 1 <= k <= Z.of_nat (size m).

(** Part numbers start at 1. *)
Definition one_based (m : gmap Z string) : Prop :=
  ∀ k, is_Some (m !! k) → 1 <= k.

(** The error of the early return of [FinishLargeFile]. *)
Definition invalid_index (k : Z) : error :=
  PlainError ("b2_finish_large_file: invalid index " +:+ pretty k).

(** One call of [UploadPart] against a large file: its arguments and what
    happens to its request. *)
Record upload_call : Type := mk_upload_call {
  call_sha1 : string;
  call_size : Z;
  call_index : Z;
  call_transfer : transfer
}.

(** The calls of [UploadPart] in the order in which they take the mutex of
    the large file, each running its critical section on what the previous
    one left. *)
Fixpoint UploadParts (l : LargeFile) (cs : list upload_call) : outcome LargeFile :=
  match cs with
  | [] => Returned l
  | c :: rest =>
    match UploadPart l (call_sha1 c) (call_size c) (call_index c) (call_transfer c) with
    | Panicked => Panicked
    | Returned (_, l') => UploadParts l' rest
    end
  end.

(** The call returns without an error. *)
Definition upload_succeeds (c : upload_call) : Prop :=
  request_returned (call_sha1 c) (call_size c) (call_transfer c) ∧
  transfer_err (call_transfer c) = None.

(** The hash that a successful call stores: the argument, or with the
    sentinel the bytes that the filter kept. *)
Definition resolved_sha1 (c : upload_call) : string :=
  if String.eqb (call_sha1 c) "hex_digits_at_end" then
    match Read_all (new_keepFinalBytes (call_size c))
                   (reads_of_body (call_size c) (call_transfer c)) with
    | Returned k => String.string_of_list_byte (sha k)
    | Panicked => ""
    end
  else call_sha1 c.

(** The sum of the sizes of the calls, as an integer. *)
Definition total_size (cs : list upload_call) : Z :=
  foldr (λ c acc, call_size c + acc) 0 cs.

(** The array of hashes indexed by part number minus one. *)
Definition Hashes_of (m : gmap Z string) : list string :=
  (λ k, default "" (m !! k)) <$> seqZ 1 (Z.of_nat (size m)).

(** The map entry that a successful call stores. *)
Definition stored (c : upload_call) : Z * string := (call_index c, resolved_sha1 c).

(** The 40-byte array once the first [c] bytes of [stream] went through
    the filter: the part of the last 40 bytes that lies among them, in place,
    and zero elsewhere. *)
Definition seen (stream : list Byte.byte) (c : Z) : list Byte.byte :=
  (λ j : nat,
     let q := Z.of_nat (length stream) - 40 + Z.of_nat j in
     if (0 <=? q) && (q <? c) then nth (Z.to_nat q) stream Byte.x00 else Byte.x00)
  <$> seq 0 40.

(** The number of bytes that a sequence of reads delivered. *)
Definition total_read (reads : list inner_read) : Z :=
  foldr (λ r acc, read_n r + acc) 0 reads.

(** A reader that delivers [stream] in chunks of [size] bytes into a buffer
    of [size] bytes; [fuel] bounds the number of reads. *)
Fixpoint chunked (fuel size : nat) (stream : list Byte.byte) : list inner_read :=
  match fuel with
  | O => []
  | S fuel =>
    match stream with
    | [] => []
    | _ =>
      {| read_p := take size stream ++ replicate (size - length stream) Byte.x00;
         read_n := Z.of_nat (Nat.min size (length stream));
         read_err := None |} :: chunked fuel size (drop size stream)
    end
  end.

(** A stream of [len] bytes without a short period. *)
Definition sample_stream (len : nat) : list Byte.byte :=
  (λ i, default Byte.x00 (Byte.of_nat (i `mod` 251))) <$> seq 0 len.


(** *** Further code of the package *)

(** [func Backoff(err error) time.Duration] of package [base]; the factor is
    [time.Second] in nanoseconds. *)
Definition Backoff (err : option error) : Z :=
  match as_b2err err with
  | None => 0
  | Some e => int64 (retry e * 1000000000)
  end.

(** [b2types.ErrorMessage]. *)
Record ErrorMessage : Type := mk_ErrorMessage {
  em_Status : Z;
  em_Code : string;
  em_Msg : string
}.

(** What [mkErr] reads of an [*http.Response]: the status code, the value
    of [resp.Header.Get("Retry-After")] (empty when the header is absent),
    the value of [resp.Request.Header.Get("X-Blazer-Method")], and what
    [ioutil.ReadAll(resp.Body)] returns. *)
Record Response : Type := mk_Response {
  StatusCode : Z;
  Retry_After : string;
  Blazer_Method : string;
  Body : list Byte.byte * option error
}.

Section mkErr.

(** [strconv.ParseInt(s, 10, 64)]: the value and the error. *)
Variable ParseInt : string → Z * option error.

(** [json.Unmarshal(data, msg)] on a zero [ErrorMessage]: the message
    afterwards and the error. *)
Variable Unmarshal : list Byte.byte → ErrorMessage * option error.

(** [func mkErr(resp *http.Response) error]. *)
Definition mkErr (resp : Response) : error :=
  let '(data, err) := Body resp in
  let msgBody :=
    match err with
    | Some err => "couldn't read message body: " +:+ Error err
    | None => ""
    end in
  let '(msg, uerr) := Unmarshal data in
  let msgBody :=
    match uerr with
    | Some err =>
      if negb (String.eqb msgBody "")
      then "couldn't read message body: " +:+ Error err
      else msgBody
    | None => msgBody
    end in
  let msgBody := if String.eqb msgBody "" then em_Msg msg else msgBody in
  let retryAfter :=
    if negb (String.eqb (Retry_After resp) "") then
      let '(r, err) := ParseInt (Retry_After resp) in
      match err with
      | Some _ => 0
      | None => r
      end
    else 0 in
  B2Err {| msg := msgBody;
           retry := retryAfter;
           code := StatusCode resp;
           msgCode := em_Code msg;
           method := Blazer_Method resp |}.

End mkErr.

(** The call got no error from [makeRequest]. *)
Definition succeeded (c : upload_call) : bool :=
  match transfer_err (call_transfer c) with
  | None => true
  | Some _ => false
  end.

(** [makeRequest] returned for the call. *)
Definition call_returned (c : upload_call) : Prop :=
  request_returned (call_sha1 c) (call_size c) (call_transfer c).

(** A [LargeFile] whose [hashes] field may be the nil map: [None]. *)
Record LargeFileN : Type := mk_LargeFileN {
  n_ID : string;
  n_size : Z;
  n_hashes : option (gmap Z string)
}.

(** Reading a nil map ([len], [range]) is reading an empty map. *)
Definition read_view (l : LargeFileN) : LargeFile :=
  {| l_ID := n_ID l; l_size := n_size l; l_hashes := default ∅ (n_hashes l) |}.

(** [func (f *File) AsLargeFile() *LargeFile]: only [ID] and [b2] are set, so
    [size] is zero and [hashes] is the nil map. *)
Definition AsLargeFile (f : File) : LargeFileN :=
  {| n_ID := File_ID f; n_size := 0; n_hashes := None |}.

(** [UploadPart] on a large file whose map may be nil: the assignment
    [fc.file.hashes[index] = sha1] to an entry of a nil map panics. *)
Definition UploadPartN (l : LargeFileN) (sha1 : string) (size index : Z) (t : transfer)
    : outcome ((Z * option error) * LargeFileN) :=
  match UploadPart (read_view l) sha1 size index t with
  | Panicked => Panicked
  | Returned ((n, Some err), _) => Returned ((n, Some err), l)
  | Returned ((n, None), l') =>
    match n_hashes l with
    | None => Panicked
    | Some _ =>
      Returned ((n, None),
                {| n_ID := l_ID l'; n_size := l_size l'; n_hashes := Some (l_hashes l') |})
    end
  end.

(** [FinishLargeFile] on a large file whose map may be nil. *)
Definition FinishLargeFileN (l : LargeFileN) (entries : list (Z * string))
    (send : FinishLargeFileRequest → option error * FinishLargeFileResponse)
    : outcome (option File * option error) * list FinishLargeFileRequest :=
  FinishLargeFile (read_view l) entries send.

(** The constants [APIBase] and [DefaultUserAgent]. *)
Definition APIBase : string := "https://api.backblazeb2.com".
Definition DefaultUserAgent : string := "blazer/0.7.2".

(** [func (o *b2Options) getAPIBase() string]. *)
Definition getAPIBase (o : b2Options) : string :=
  if negb (String.eqb (apiBase o) "") then apiBase o else APIBase.

(** [func (o *b2Options) getUserAgent() string]. *)
Definition getUserAgent (o : b2Options) : string :=
  if negb (String.eqb (userAgent o) "")
  then userAgent o +:+ " " +:+ DefaultUserAgent
  else DefaultUserAgent.

(** [type AuthOption], a function on a [b2Options] pointer: the options
    after it ran. *)
Definition AuthOption : Type := b2Options → b2Options.

(** [func UserAgent(agent string) AuthOption]. *)
Definition UserAgent (agent : string) : AuthOption := λ o,
  {| transport := transport o; failSomeUploads := failSomeUploads o;
     expireTokens := expireTokens o; capExceeded := capExceeded o;
     apiBase := apiBase o;
     userAgent := if String.eqb (userAgent o) "" then agent
                  else agent +:+ " " +:+ userAgent o |}.

(** The options that [AuthorizeAccount] builds: every option applied in
    order to the zero value. *)
Definition apply_AuthOptions (opts : list AuthOption) : b2Options :=
  foldl (λ o f, f o) (mk_b2Options None false false false "" "") opts.

(** A stand-in for [strconv.ParseInt] that accepts the one input [7]. *)
Definition sample_ParseInt (s : string) : Z * option error :=
  if String.eqb s "7" then (7, None)
  else (0, Some (PlainError "strconv.ParseInt: invalid syntax")).

(** A stand-in for [json.Unmarshal] that finds no field. *)
Definition sample_Unmarshal (data : list Byte.byte) : ErrorMessage * option error :=
  (mk_ErrorMessage 0 "" "", None).

End Base.

(** ** Package [retry] *)

Module Retry.
Local Open Scope Z_scope.
Import GoInt.
Import Base.

(** [type Config struct]. The [after] field is left to the world below: the
    channel that it returns is only ever used in the [select] of [Do]. *)
Record Config : Type := mk_Config {
  attempts : Z;
  delay : Z;
  dynamicAttempts : Z → Z → error → Z;
  dynamicDelay : Z → Z → error → Z;
  onRetry : Z → error → option error;
  retryIf : Z → error → bool
}.

(** [type Option], a function on a [Config] pointer: the configuration
    after the option ran. *)
Definition Option : Type := Config → Config.

(** [func newDefaultRetryConfig() *Config]. *)
Definition newDefaultRetryConfig : Config :=
  {| attempts := 1;
     delay := 0;
     dynamicAttempts := λ _ attempts _, attempts;
     dynamicDelay := λ _ delay _, delay;
     onRetry := λ _ _, None;
     retryIf := λ _ _, true |}.

(** [func Attempts(attempts uint) Option]. *)
Definition Attempts (n : Z) : Option := λ c,
  {| attempts := n; delay := delay c; dynamicAttempts := dynamicAttempts c;
     dynamicDelay := dynamicDelay c; onRetry := onRetry c; retryIf := retryIf c |}.

(** [func Delay(delay time.Duration) Option]. *)
Definition Delay (d : Z) : Option := λ c,
  {| attempts := attempts c; delay := d; dynamicAttempts := dynamicAttempts c;
     dynamicDelay := dynamicDelay c; onRetry := onRetry c; retryIf := retryIf c |}.

(** [func RetryIf(retryIf RetryIfFunc) Option], for a function that is not nil. *)
Definition RetryIf (f : Z → error → bool) : Option := λ c,
  {| attempts := attempts c; delay := delay c; dynamicAttempts := dynamicAttempts c;
     dynamicDelay := dynamicDelay c; onRetry := onRetry c; retryIf := f |}.

(** The case of the [select] statement that is taken at the end of an
    attempt: the timer channel, or [ctx.Done()] together with the error
    that [ctx.Err()] then returns, which the [context] package keeps
    different from nil once [Done] is closed. *)
Inductive select_case : Type :=
| AfterFired
| CtxDone (err : error).

(** What the surroundings of one run of [Do] decide: [ctx.Err()] on entry,
    the result of each call of [retryableFunc] and the outcome of each wait,
    both numbered from zero in the order in which they happen. *)
Record World : Type := mk_World {
  ctx_Err : option error;
  retryableFunc : nat → option error;
  select_wait : nat → Z → select_case
}.

(** What a run of [Do] does, in order. *)
Inductive event : Type :=
| Called (n : Z)
| Waited (n : Z) (d : Z) (c : select_case).

(** The [for] loop of [Do], entered for the pass number [i] with the
    counter [n] and the configuration [config]; [None] when [fuel] passes
    do not reach a [return]. *)
Fixpoint Do_loop (fuel : nat) (w : World) (config : Config) (n : Z) (i : nat)
    : option (option error * list event) :=
  match fuel with
  | O => None
  | S fuel =>
    let n := uint64 (n + 1) in
    match retryableFunc w i with
    | None => Some (None, [Called n])
    | Some err =>
      let attempts' := dynamicAttempts config n (attempts config) err in
      if negb (attempts' =? 0) && (n >=? attempts') then Some (Some err, [Called n])
      else if negb (retryIf config n err) then Some (Some err, [Called n])
      else
        match onRetry config n err with
        | Some err' => Some (Some err', [Called n])
        | None =>
          let delay' := dynamicDelay config n (delay config) err in
          match select_wait w i delay' with
          | CtxDone cerr => Some (Some cerr, [Called n; Waited n delay' (CtxDone cerr)])
          | AfterFired =>
            let config' :=
              {| attempts := attempts'; delay := delay';
                 dynamicAttempts := dynamicAttempts config;
                 dynamicDelay := dynamicDelay config;
                 onRetry := onRetry config; retryIf := retryIf config |} in
            match Do_loop fuel w config' n (S i) with
            | None => None
            | Some (res, tr) => Some (res, Called n :: Waited n delay' AfterFired :: tr)
            end
          end
        end
    end
  end.

(** [func Do(ctx, retryableFunc, opts ...Option) error]: the error that is
    returned and the calls and waits of the run. *)
Definition Do (fuel : nat) (w : World) (opts : list Option) : option (option error * list event) :=
  match ctx_Err w with
  | Some err => Some (Some err, [])
  | None => Do_loop fuel w (foldl (λ c opt, opt c) newDefaultRetryConfig opts) 0 0
  end.

(** [time.Second], in nanoseconds. *)
Definition Second : Z := 1000000000.

(** [func Backoff(d time.Duration) time.Duration], for the function
    [jitter] that [Jitter] is during the call, whatever number it draws and
    however its floating-point operations round. *)
Definition Backoff (jitter : Z → Z) (d : Z) : Z :=
  if d >? 30 * Second then int64 (30 * Second + jitter d)
  else int64 (int64 (d * 2) + jitter (int64 (d * 2))).


(** The number of calls of [retryableFunc] in a run. *)
Definition call_count (tr : list event) : nat :=
  length (List.filter (λ ev, match ev with Called _ => true | Waited _ _ _ => false end) tr).

(** The number of waits in a run. *)
Definition wait_count (tr : list event) : nat :=
  length (List.filter (λ ev, match ev with Called _ => false | Waited _ _ _ => true end) tr).

End Retry.

(** ** The cleanup command *)

Module Cleanup.
(** [var bucketNameSuffixes]. *)
Definition bucketNameSuffixes : list string :=
  ["consistobucket"; "base-tests"; "replication-target"].

(** The inner loop of [main] over the suffixes: whether it appends the
    name before it breaks or runs out. *)
Fixpoint suffix_match (id name : string) (suffixes : list string) : bool :=
  match suffixes with
  | [] => false
  | suffix :: rest =>
    if String.eqb name (id +:+ "-" +:+ suffix) then true
    else suffix_match id name rest
  end.

(** The loop of [main] over the bucket names that [client.ListBuckets]
    returned: the slice [kill] that it builds. *)
Fixpoint kill_list (id : string) (names : list string) : list string :=
  match names with
  | [] => []
  | name :: rest =>
    if String.prefix (id +:+ "-b2-tests-") name then name :: kill_list id rest
    else if suffix_match id name bucketNameSuffixes then name :: kill_list id rest
    else kill_list id rest
  end.

End Cleanup.

Import Base GoInt.
Local Open Scope Z_scope.

(** * Properties *)

(** ** Machine integers *)

Lemma int64_id (z : Z) : in_int64 z → int64 z = z.
Proof.
  unfold in_int64, int64. intros Hz.
  rewrite Z.mod_small; lia.
Qed.

Lemma int64_add_l (a b : Z) : int64 (int64 a + b) = int64 (a + b).
Proof.
  unfold int64.
  replace ((a + 2 ^ 63) `mod` 2 ^ 64 - 2 ^ 63 + b + 2 ^ 63)
    with ((a + 2 ^ 63) `mod` 2 ^ 64 + b) by lia.
  rewrite Zplus_mod_idemp_l. f_equal. f_equal. lia.
Qed.

Lemma int64_range (z : Z) : in_int64 (int64 z).
Proof.
  unfold in_int64, int64.
  pose proof (Z.mod_pos_bound (z + 2 ^ 63) (2 ^ 64)). lia.
Qed.

(** ** The error classifier *)

Lemma upload_method_eqb (e : b2err) :
  upload_method e →
  String.eqb (method e) "b2_upload_file" || String.eqb (method e) "b2_upload_part" = true.
Proof. intros [-> | ->]; reflexivity. Qed.

(** C2, as stated, fails: an upload error with a status in [500,600) and a
    positive Retry-After value is classified [Retry]. *)
Lemma Action_upload_5xx_counterexample :
  ¬ (∀ e : b2err, upload_method e → 500 <= code e < 600 →
       Action (Some (B2Err e)) = AttemptNewUpload).
Proof.
  intros H.
  specialize (H (mk_b2err "service busy" "b2_upload_part" 5 503 "")).
  discriminate H; [right; reflexivity | simpl; lia].
Qed.

(** C2, amended: for an error of [b2_upload_file] or [b2_upload_part] with a
    status in [500,600), [Action] returns [Retry] when the Retry-After value
    is positive and [AttemptNewUpload] otherwise. *)
Theorem Action_upload_5xx (e : b2err) :
  upload_method e → 500 <= code e < 600 →
  Action (Some (B2Err e)) = if retry e >? 0 then Retry else AttemptNewUpload.
Proof.
  intros Hm Hc. unfold Action. simpl.
  destruct (retry e >? 0); [reflexivity |].
  rewrite (upload_method_eqb e Hm).
  replace (code e >=? 500) with true by (symmetry; apply Z.geb_le; lia).
  replace (code e <? 600) with true by (symmetry; apply Z.ltb_lt; lia).
  reflexivity.
Qed.

Lemma Action_upload_5xx_witness :
  Action (Some (B2Err (mk_b2err "internal error" "b2_upload_part" 0 500 "")))
  = AttemptNewUpload.
Proof.
  apply (Action_upload_5xx (mk_b2err "internal error" "b2_upload_part" 0 500 "")).
  - right; reflexivity.
  - simpl; lia.
Defined.

(** ** The transport wrapper *)

(** What [makeNetRequest] returns for each failed round trip: an error
    that is one of the two values [context.Canceled] and
    [context.DeadlineExceeded] is returned as it is and classified [Punt]; an
    error that is or wraps an [x509.UnknownAuthorityError] is returned as it
    is and classified [Punt]; every other error, also one that wraps a
    context error, is replaced by a [b2err] with [retry = 1] carrying its
    text, which is classified [Retry]. *)
Lemma makeNetRequest_failure {Resp : Type} (resp : option Resp) (err : error) :
  let r := makeNetRequest (resp, Some err) in
  if is_context_error err then
    r = (None, Some err) ∧ Action (snd r) = Punt
  else if errors_As_UnknownAuthority err then
    r = (None, Some err) ∧ Action (snd r) = Punt
  else
    r = (None, Some (B2Err {| msg := Error err; method := ""; retry := 1;
                              code := 0; msgCode := "" |}))
    ∧ Action (snd r) = Retry.
Proof.
  destruct err as [e | | | text | text inner | text]; simpl; try (split; reflexivity).
  destruct (errors_As_UnknownAuthority inner) eqn:Hin; split; reflexivity.
Qed.

(** C6 fails on the code for a cancellation that arrives wrapped: the
    [switch err] compares with the two context values themselves, so a
    cancellation or an expired deadline inside an error with [Unwrap] is
    replaced by a [b2err] with [retry = 1] and classified [Retry], while an
    unknown-authority error in the same position is found by [errors.As] and
    passed through. *)
Theorem makeNetRequest_wrapped_cancellation :
  let canceled := WrapError "round trip: context canceled" Canceled in
  let expired := WrapError "round trip: context deadline exceeded" DeadlineExceeded in
  let untrusted :=
    WrapError "tls: failed to verify certificate"
              (UnknownAuthorityError "x509: certificate signed by unknown authority") in
  makeNetRequest (@None unit, Some canceled)
  = (None, Some (B2Err {| msg := "round trip: context canceled"; method := "";
                          retry := 1; code := 0; msgCode := "" |})) ∧
  Action (snd (makeNetRequest (@None unit, Some canceled))) = Retry ∧
  Action (snd (makeNetRequest (@None unit, Some expired))) = Retry ∧
  makeNetRequest (@None unit, Some untrusted) = (None, Some untrusted).
Proof. repeat split. Qed.

(** ** The account session *)

(** What [Update] does to each field: six are taken from the new session,
    [s3URI], [bucket] and [pfx] keep their old values. *)
Lemma Update_fields (b n : B2) :
  accountID (Update b n) = accountID n ∧ authToken (Update b n) = authToken n ∧
  apiURI (Update b n) = apiURI n ∧ downloadURI (Update b n) = downloadURI n ∧
  minPartSize (Update b n) = minPartSize n ∧ opts (Update b n) = opts n ∧
  s3URI (Update b n) = s3URI b ∧ bucket (Update b n) = bucket b ∧ pfx (Update b n) = pfx b.
Proof. repeat split. Qed.

(** C8 fails on the code: after [Update] the S3-compatible URI of the
    receiver is still the old one, not the one of the new session. *)
Theorem Update_leaves_s3URI :
  let o := mk_b2Options None false false false "" "" in
  let b := mk_B2 "acct" "token-1" "https://api001" "https://s3.us-west-001"
                 "https://f001" 5000000 o "" "" in
  let n := mk_B2 "acct" "token-2" "https://api002" "https://s3.us-west-002"
                 "https://f002" 5000000 o "" "" in
  s3URI (Update b n) = "https://s3.us-west-001" ∧ s3URI (Update b n) ≠ s3URI n.
Proof. simpl. split; [reflexivity | discriminate]. Qed.

(** ** The deferred-hash filter *)

Lemma length_seen (stream : list Byte.byte) (c : Z) : length (seen stream c) = 40%nat.
Proof. unfold seen. rewrite length_fmap, length_seq. reflexivity. Qed.

Lemma nth_seen (stream : list Byte.byte) (c : Z) (j : nat) :
  (j < 40)%nat →
  nth j (seen stream c) Byte.x00
  = let q := Z.of_nat (length stream) - 40 + Z.of_nat j in
    if (0 <=? q) && (q <? c) then nth (Z.to_nat q) stream Byte.x00 else Byte.x00.
Proof.
  intros Hj. unfold seen. rewrite nth_lookup, list_lookup_fmap.
  rewrite lookup_seq_lt by exact Hj. reflexivity.
Qed.

Lemma nth_replicate_same {A : Type} (n i : nat) (x : A) : nth i (replicate n x) x = x.
Proof.
  revert i. induction n as [| n IH]; intros [| i]; simpl; try reflexivity. apply IH.
Qed.

Lemma length_copy_into (dst src : list Byte.byte) (lo hi : Z) :
  0 <= lo <= hi → hi <= Z.of_nat (length dst) →
  length src = Z.to_nat (hi - lo) →
  length (copy_into dst lo hi src) = length dst.
Proof.
  intros Hlo Hhi Hsrc. unfold copy_into.
  rewrite !length_app, !length_take, length_drop. lia.
Qed.

Lemma nth_copy_into (dst src : list Byte.byte) (lo hi : Z) (d : Byte.byte) (j : nat) :
  0 <= lo <= hi → hi <= Z.of_nat (length dst) →
  length src = Z.to_nat (hi - lo) →
  nth j (copy_into dst lo hi src) d
  = if (lo <=? Z.of_nat j) && (Z.of_nat j <? hi)
    then nth (j - Z.to_nat lo) src d else nth j dst d.
Proof.
  intros Hlo Hhi Hsrc. unfold copy_into.
  replace (Z.to_nat (hi - lo) `min` length src)%nat with (length src) by lia.
  destruct (lo <=? Z.of_nat j) eqn:H1; simpl.
  - apply Z.leb_le in H1.
    rewrite app_nth2 by (rewrite length_take; lia).
    rewrite length_take.
    replace (Z.to_nat lo `min` length dst)%nat with (Z.to_nat lo) by lia.
    destruct (Z.of_nat j <? hi) eqn:H2.
    + apply Z.ltb_lt in H2.
      rewrite app_nth1 by (rewrite length_take; lia).
      rewrite nth_firstn.
      replace (j - Z.to_nat lo <? length src)%nat with true
        by (symmetry; apply Nat.ltb_lt; lia).
      reflexivity.
    + apply Z.ltb_ge in H2.
      rewrite app_nth2 by (rewrite length_take; lia).
      rewrite length_take, nth_skipn. f_equal. lia.
  - apply Z.leb_gt in H1.
    rewrite app_nth1 by (rewrite length_take; lia).
    rewrite nth_firstn.
    replace (j <? Z.to_nat lo)%nat with true by (symmetry; apply Nat.ltb_lt; lia).
    reflexivity.
Qed.

Lemma length_slice (p : list Byte.byte) (lo hi : Z) :
  0 <= lo <= hi → hi <= Z.of_nat (length p) →
  length (slice p lo hi) = Z.to_nat (hi - lo).
Proof.
  intros Hlo Hhi. unfold slice. rewrite length_take, length_drop. lia.
Qed.

Lemma nth_slice (p : list Byte.byte) (lo hi : Z) (d : Byte.byte) (i : nat) :
  (i < Z.to_nat (hi - lo))%nat →
  nth i (slice p lo hi) d = nth (Z.to_nat lo + i) p d.
Proof.
  intros Hi. unfold slice. rewrite nth_firstn, nth_skipn.
  replace (i <? Z.to_nat (hi - lo))%nat with true by (symmetry; apply Nat.ltb_lt; lia).
  reflexivity.
Qed.

Lemma clamp_max (x : Z) : (if x <? 0 then 0 else x) = Z.max 0 x.
Proof. destruct (x <? 0) eqn:H; [apply Z.ltb_lt in H | apply Z.ltb_ge in H]; lia. Qed.

Lemma nth_delivered (stream p : list Byte.byte) (c n : Z) (i : nat) :
  0 <= c → 0 <= n →
  take (Z.to_nat n) p = take (Z.to_nat n) (drop (Z.to_nat c) stream) →
  Z.of_nat i < n →
  nth i p Byte.x00 = nth (Z.to_nat (c + Z.of_nat i)) stream Byte.x00.
Proof.
  intros Hc Hn Heq Hi.
  assert (H : nth i (take (Z.to_nat n) p) Byte.x00
              = nth i (take (Z.to_nat n) (drop (Z.to_nat c) stream)) Byte.x00)
    by (rewrite Heq; reflexivity).
  rewrite !nth_firstn, nth_skipn in H.
  replace (i <? Z.to_nat n)%nat with true in H by (symmetry; apply Nat.ltb_lt; lia).
  rewrite H. f_equal. lia.
Qed.

Lemma Read_seen (stream p : list Byte.byte) (c n : Z) (k : keepFinalBytes)
    (err : option error) :
  Z.of_nat (length stream) < 2 ^ 63 →
  0 <= c → 0 <= n <= Z.of_nat (length p) → c + n <= Z.of_nat (length stream) →
  remain k = Z.of_nat (length stream) - c →
  sha k = seen stream c →
  take (Z.to_nat n) p = take (Z.to_nat n) (drop (Z.to_nat c) stream) →
  Read k p n err
  = Returned ({| remain := Z.of_nat (length stream) - (c + n);
                 sha := seen stream (c + n) |}, (n, err)).
Proof.
  intros Hlen Hc Hn Hcn Hrem Hsha Hp.
  unfold Read, Read_indices. rewrite Hrem, Hsha.
  set (L := Z.of_nat (length stream)) in *.
  rewrite !(int64_id (L - c - n)) by (unfold in_int64; lia).
  rewrite (int64_id (-40 + (L - c))) by (unfold in_int64; lia).
  rewrite (int64_id (40 - (L - c))) by (unfold in_int64; lia).
  rewrite (int64_id (n - (L - c))) by (unfold in_int64; lia).
  rewrite (int64_id (n - (L - c) + 40)) by (unfold in_int64; lia).
  rewrite !clamp_max.
  destruct (L - c - n >? 40) eqn:Hfar.
  - rewrite Z.gtb_ltb in Hfar. apply Z.ltb_lt in Hfar.
    f_equal. f_equal. f_equal; [lia |].
    apply nth_ext with (d := Byte.x00) (d' := Byte.x00); [by rewrite !length_seen |].
    intros j Hj. rewrite length_seen in Hj. rewrite !nth_seen by exact Hj. simpl.
    fold L.
    replace (L - 40 + Z.of_nat j <? c) with false by (symmetry; apply Z.ltb_ge; lia).
    replace (L - 40 + Z.of_nat j <? c + n) with false by (symmetry; apply Z.ltb_ge; lia).
    reflexivity.
  - rewrite Z.gtb_ltb in Hfar. apply Z.ltb_ge in Hfar.
    set (ki := Z.max 0 (40 - (L - c))). set (pi := Z.max 0 (-40 + (L - c))).
    set (ke := n - (L - c) + 40).
    assert (Hk : slice_in_range ki ke 40 = true).
    { unfold slice_in_range. rewrite !andb_true_iff, !Z.leb_le. lia. }
    assert (Hpr : slice_in_range pi n (Z.of_nat (length p)) = true).
    { unfold slice_in_range. rewrite !andb_true_iff, !Z.leb_le. lia. }
    rewrite Hk, Hpr. simpl.
    f_equal. f_equal. f_equal; [lia |].
    assert (Hsl : length (slice p pi n) = Z.to_nat (ke - ki))
      by (rewrite length_slice by lia; lia).
    apply nth_ext with (d := Byte.x00) (d' := Byte.x00).
    + rewrite length_copy_into, !length_seen; [reflexivity | lia | | exact Hsl].
      rewrite length_seen. lia.
    + intros j Hj.
      rewrite length_copy_into, length_seen in Hj;
        [| lia | rewrite length_seen; lia | exact Hsl].
      rewrite nth_copy_into; [| lia | rewrite length_seen; lia | exact Hsl].
      rewrite !nth_seen by exact Hj. simpl. fold L.
      destruct (ki <=? Z.of_nat j) eqn:H1; simpl.
      * apply Z.leb_le in H1.
        destruct (Z.of_nat j <? ke) eqn:H2.
        -- apply Z.ltb_lt in H2.
           rewrite nth_slice by lia.
           rewrite (nth_delivered stream p c n) by (try assumption; lia).
           replace ((0 <=? L - 40 + Z.of_nat j) && (L - 40 + Z.of_nat j <? c + n)) with true
             by (symmetry; rewrite andb_true_iff, Z.leb_le, Z.ltb_lt; lia).
           f_equal. lia.
        -- apply Z.ltb_ge in H2.
           replace (L - 40 + Z.of_nat j <? c) with false by (symmetry; apply Z.ltb_ge; lia).
           replace (L - 40 + Z.of_nat j <? c + n) with false by (symmetry; apply Z.ltb_ge; lia).
           reflexivity.
      * apply Z.leb_gt in H1.
        replace (L - 40 + Z.of_nat j <? c + n) with (L - 40 + Z.of_nat j <? c); [reflexivity |].
        destruct (L - 40 + Z.of_nat j <? c) eqn:H3; symmetry.
        -- apply Z.ltb_lt in H3. apply Z.ltb_lt. lia.
        -- apply Z.ltb_ge in H3. apply Z.ltb_ge. lia.
Qed.

Lemma length_delivered (r : inner_read) :
  reader_contract r → Z.of_nat (length (delivered r)) = read_n r.
Proof. unfold reader_contract, delivered. intros H. rewrite length_take. lia. Qed.

Lemma length_concat_delivered (reads : list inner_read) :
  Forall reader_contract reads →
  Z.of_nat (length (concat (delivered <$> reads))) = total_read reads.
Proof.
  induction 1 as [| r rest Hr _ IH]; [reflexivity |].
  rewrite fmap_cons. cbn [concat].
  change (total_read (r :: rest)) with (read_n r + total_read rest).
  rewrite length_app, <- IH, <- (length_delivered r Hr). lia.
Qed.

Lemma total_read_nonneg (reads : list inner_read) :
  Forall reader_contract reads → 0 <= total_read reads.
Proof. intros H. rewrite <- length_concat_delivered by exact H. lia. Qed.

Lemma seen_0 (stream : list Byte.byte) : seen stream 0 = zero_sha.
Proof.
  apply nth_ext with (d := Byte.x00) (d' := Byte.x00).
  - rewrite length_seen. reflexivity.
  - intros j Hj. rewrite length_seen in Hj. rewrite nth_seen by exact Hj. cbv zeta.
    unfold zero_sha. rewrite nth_replicate_same.
    destruct (0 <=? _) eqn:H1; [| reflexivity]. apply Z.leb_le in H1.
    replace (_ <? 0) with false by (symmetry; apply Z.ltb_ge; lia). reflexivity.
Qed.

Lemma seen_all (stream : list Byte.byte) :
  seen stream (Z.of_nat (length stream)) = final_40 stream.
Proof.
  assert (Hlen : length (final_40 stream) = 40%nat).
  { unfold final_40. rewrite length_app, length_replicate, length_drop. lia. }
  apply nth_ext with (d := Byte.x00) (d' := Byte.x00).
  - rewrite length_seen, Hlen. reflexivity.
  - intros j Hj. rewrite length_seen in Hj. rewrite nth_seen by exact Hj. cbv zeta.
    unfold final_40.
    destruct (0 <=? Z.of_nat (length stream) - 40 + Z.of_nat j) eqn:H1.
    + apply Z.leb_le in H1.
      replace (_ <? Z.of_nat (length stream)) with true by (symmetry; apply Z.ltb_lt; lia).
      simpl. rewrite app_nth2 by (rewrite length_replicate; lia).
      rewrite length_replicate, nth_skipn. f_equal. lia.
    + apply Z.leb_gt in H1. simpl.
      rewrite app_nth1 by (rewrite length_replicate; lia).
      rewrite nth_replicate_same. reflexivity.
Qed.

Lemma Read_all_seen (reads : list inner_read) :
  ∀ (stream : list Byte.byte) (c : Z) (k : keepFinalBytes),
    Z.of_nat (length stream) < 2 ^ 63 →
    0 <= c <= Z.of_nat (length stream) →
    Forall reader_contract reads →
    remain k = Z.of_nat (length stream) - c →
    sha k = seen stream c →
    (∃ rest, drop (Z.to_nat c) stream = concat (delivered <$> reads) ++ rest) →
    Read_all k reads
    = Returned {| remain := Z.of_nat (length stream) - (c + total_read reads);
                  sha := seen stream (c + total_read reads) |}.
Proof.
  induction reads as [| r rest IH]; intros stream c k Hlen Hc Hok Hrem Hsha [tl Htl].
  - simpl. rewrite Z.add_0_r, <- Hrem, <- Hsha. by destruct k.
  - apply Forall_cons in Hok as [Hr Hrest].
    pose proof (length_delivered r Hr) as Hdl.
    pose proof Hr as [Hn0 Hn1].
    rewrite fmap_cons in Htl. cbn [concat] in Htl. rewrite <- app_assoc in Htl.
    assert (Hroom : c + read_n r <= Z.of_nat (length stream)).
    { assert (H : length (drop (Z.to_nat c) stream)
                  = length (delivered r ++ concat (delivered <$> rest) ++ tl))
        by (rewrite Htl; reflexivity).
      rewrite length_drop, length_app in H. lia. }
    change (total_read (r :: rest)) with (read_n r + total_read rest).
    cbn [Read_all].
    rewrite (Read_seen stream (read_p r) c (read_n r) k (read_err r));
      try assumption; try lia.
    + replace (c + (read_n r + total_read rest)) with (c + read_n r + total_read rest) by lia.
      apply IH; try assumption; [lia | reflexivity | reflexivity |].
      exists tl.
      replace (Z.to_nat (c + read_n r)) with (Z.to_nat c + length (delivered r))%nat by lia.
      rewrite <- drop_drop, Htl. apply drop_app_length.
    + rewrite Htl. symmetry. apply take_app_length'. unfold delivered in *. lia.
Qed.

Lemma Read_passes_through (k k' : keepFinalBytes) (p : list Byte.byte) (n : Z)
    (err : option error) (res : Z * option error) :
  Read k p n err = Returned (k', res) → res = (n, err).
Proof.
  unfold Read. destruct (int64 (remain k - n) >? 40); [by inversion 1 |].
  destruct (Read_indices (remain k) n) as [[[ki ke] pi] pe].
  destruct (_ && _); [by inversion 1 | discriminate].
Qed.

(** C3: when the reads of the wrapped reader deliver, in chunks of any
    sizes, a stream whose length is the size that the filter was created
    with, no read panics, the filter ends with the last 40 bytes of the
    stream in its array (the whole stream after leading zero bytes when it is
    shorter), and every [Read] returns the count and the error of the inner
    read. *)
Theorem keepFinalBytes_final_40 (stream : list Byte.byte) (reads : list inner_read) :
  Z.of_nat (length stream) < 2 ^ 63 →
  Forall reader_contract reads →
  concat (delivered <$> reads) = stream →
  Read_all (new_keepFinalBytes (Z.of_nat (length stream))) reads
  = Returned {| remain := 0; sha := final_40 stream |}
  ∧ ∀ k k' r res,
      Read k (read_p r) (read_n r) (read_err r) = Returned (k', res) →
      res = (read_n r, read_err r).
Proof.
  intros Hlen Hok Hcat. split.
  - rewrite (Read_all_seen reads stream 0); try assumption; try lia.
    + assert (Htot : total_read reads = Z.of_nat (length stream))
        by (rewrite <- length_concat_delivered, Hcat by exact Hok; reflexivity).
      rewrite Z.add_0_l, Htot, Z.sub_diag, seen_all. reflexivity.
    + simpl. lia.
    + simpl. symmetry. apply seen_0.
    + exists []. rewrite app_nil_r, Hcat. reflexivity.
  - intros k k' r res. apply Read_passes_through.
Qed.

Lemma keepFinalBytes_final_40_witness :
  let stream := sample_stream 41 in
  Read_all (new_keepFinalBytes 41) (chunked 41 7 stream)
  = Returned {| remain := 0; sha := final_40 stream |}.
Proof.
  intros stream.
  apply (keepFinalBytes_final_40 stream (chunked 41 7 stream)).
  - vm_compute. reflexivity.
  - repeat constructor; vm_compute; congruence.
  - vm_compute. reflexivity.
Defined.

(** The streams of the lengths and the chunk sizes that the specification
    lists, by evaluation. *)
Example keepFinalBytes_listed_streams :
  Forall (λ len, Forall (λ size,
      Read_all (new_keepFinalBytes (Z.of_nat len)) (chunked len size (sample_stream len))
      = Returned {| remain := 0; sha := final_40 (sample_stream len) |})
    [1; 7; 4096]%nat) [0; 1; 39; 40; 41; 1000]%nat.
Proof. repeat constructor; vm_compute; reflexivity. Qed.

(** C10: when the reads of the wrapped reader deliver in total no more
    bytes than the size that the filter was created with, no [Read] panics:
    every slice expression that is evaluated has its indices in range. The
    array keeps its 40 bytes and [remain] is what is left of the size. *)
Theorem keepFinalBytes_in_bounds (size : Z) (reads : list inner_read) :
  in_int64 size →
  Forall reader_contract reads →
  total_read reads <= size →
  ∃ k, Read_all (new_keepFinalBytes size) reads = Returned k ∧
       remain k = size - total_read reads ∧ length (sha k) = 40%nat.
Proof.
  intros Hsize Hok Htot.
  pose proof (total_read_nonneg reads Hok) as H0.
  pose proof (length_concat_delivered reads Hok) as Hcat.
  set (stream := concat (delivered <$> reads)
                 ++ replicate (Z.to_nat (size - total_read reads)) Byte.x00).
  assert (Hlen : Z.of_nat (length stream) = size).
  { unfold stream. rewrite length_app, length_replicate. lia. }
  eexists. split; [| split].
  - apply (Read_all_seen reads stream 0).
    + unfold in_int64 in Hsize. lia.
    + lia.
    + exact Hok.
    + simpl. lia.
    + simpl. symmetry. apply seen_0.
    + eexists. reflexivity.
  - cbn [remain]. lia.
  - cbn [sha]. apply length_seen.
Qed.

Lemma keepFinalBytes_in_bounds_witness :
  ∃ k, Read_all (new_keepFinalBytes 50) (chunked 45 7 (sample_stream 45)) = Returned k ∧
       remain k = 50 - total_read (chunked 45 7 (sample_stream 45)) ∧
       length (sha k) = 40%nat.
Proof.
  apply (keepFinalBytes_in_bounds 50 (chunked 45 7 (sample_stream 45))).
  - vm_compute. split; congruence.
  - repeat constructor; vm_compute; congruence.
  - vm_compute. congruence.
Defined.

(** A wrapped reader that delivers more than the declared size makes [Read]
    panic: the slice of the array ends beyond its 40 bytes. *)
Example keepFinalBytes_overrun_panics :
  Read (new_keepFinalBytes 1) (sample_stream 2) 2 None = Panicked.
Proof. vm_compute. reflexivity. Qed.

(** ** Part uploads *)

(** C9: when [makeRequest] returns an error to [UploadPart], the call
    returns 0 with that error and the large file is left as it was: no hash
    is stored and the size is not changed. *)
Theorem UploadPart_error_atomic (l : LargeFile) (sha1 : string) (size index : Z)
    (t : transfer) (err : error) :
  request_returned sha1 size t →
  transfer_err t = Some err →
  UploadPart l sha1 size index t = Returned ((0, Some err), l).
Proof.
  unfold request_returned, UploadPart. intros Hret Herr.
  destruct (String.eqb sha1 "hex_digits_at_end").
  - destruct Hret as [k ->]. rewrite Herr. reflexivity.
  - rewrite Herr. reflexivity.
Qed.

Lemma UploadPart_error_atomic_witness :
  let l := mk_LargeFile "4_z27c" 7 {[ 1 := "aa" ]} in
  let t := mk_transfer [] (Some (B2Err (mk_b2err "busy" "b2_upload_part" 0 503 ""))) in
  UploadPart l "bb" 9 1 t
  = Returned ((0, Some (B2Err (mk_b2err "busy" "b2_upload_part" 0 503 ""))), l).
Proof.
  intros l t.
  apply (UploadPart_error_atomic l "bb" 9 1 t
           (B2Err (mk_b2err "busy" "b2_upload_part" 0 503 ""))).
  - exact I.
  - reflexivity.
Defined.

(** ** Finishing a large file *)

Lemma fill_Hashes_gap (entries : list (Z * string)) :
  ∀ Hashes : list string,
    (∀ k v, (k, v) ∈ entries → 1 <= k) →
    (∃ k v, (k, v) ∈ entries ∧ Z.of_nat (length Hashes) < k) →
    ∃ k v, (k, v) ∈ entries ∧ Z.of_nat (length Hashes) < k ∧
           fill_Hashes Hashes entries = Returned (inl (invalid_index k)).
Proof.
  induction entries as [| [k v] rest IH]; intros Hashes Hpos (k0 & v0 & Hin & Hbig).
  - inversion Hin.
  - simpl. destruct (Z.of_nat (length Hashes) <? k) eqn:Hcmp.
    + apply Z.ltb_lt in Hcmp. exists k, v. split; [left | split; [exact Hcmp | reflexivity]].
    + apply Z.ltb_ge in Hcmp.
      assert (Hk : 1 <= k) by (apply (Hpos k v); left).
      replace ((0 <=? k - 1) && (k - 1 <? Z.of_nat (length Hashes))) with true
        by (symmetry; apply andb_true_iff; split; [apply Z.leb_le | apply Z.ltb_lt]; lia).
      destruct (IH (<[Z.to_nat (k - 1) := v]> Hashes)) as (k1 & v1 & Hin1 & Hbig1 & Hres).
      * intros k' v' Hin'. apply (Hpos k' v'). right. exact Hin'.
      * rewrite length_insert. exists k0, v0. split; [| exact Hbig].
        apply elem_of_cons in Hin as [Heq | Hin]; [| exact Hin].
        inversion Heq; subst. lia.
      * rewrite length_insert in Hbig1.
        exists k1, v1. split; [right; exact Hin1 | split; [exact Hbig1 | exact Hres]].
Qed.

Lemma keys_fill_range (m : gmap Z string) :
  (∀ k, is_Some (m !! k) → 1 <= k <= Z.of_nat (size m)) → dense m.
Proof.
  intros Hin k. split; [apply Hin |]. intros Hk.
  assert (Heq : dom m = list_to_set (seqZ 1 (Z.of_nat (size m)))).
  { apply set_subseteq_size_eq.
    - intros j Hj. apply elem_of_dom in Hj. apply elem_of_list_to_set, elem_of_seqZ.
      specialize (Hin j Hj). lia.
    - rewrite size_dom, size_list_to_set by apply NoDup_seqZ.
      rewrite length_seqZ. lia. }
  apply elem_of_dom. rewrite Heq. apply elem_of_list_to_set, elem_of_seqZ. lia.
Qed.

Lemma gap_key_beyond_size (m : gmap Z string) :
  one_based m → ¬ dense m →
  ∃ k v, (k, v) ∈ map_to_list m ∧ Z.of_nat (size m) < k.
Proof.
  intros Hpos Hgap.
  destruct (decide (Exists (λ kv : Z * string, Z.of_nat (size m) < kv.1) (map_to_list m)))
    as [Hex | Hno].
  - apply Exists_exists in Hex as ([k v] & Hin & Hbig). exists k, v. split; assumption.
  - exfalso. apply Hgap, keys_fill_range. intros k [v Hkv]. split.
    + apply Hpos. exists v. exact Hkv.
    + apply not_Exists_Forall in Hno; [| intros ?; apply _].
      rewrite Forall_forall in Hno.
      specialize (Hno (k, v) ltac:(by apply elem_of_map_to_list)). simpl in Hno. lia.
Qed.

(** C1, as stated, fails: for the mapping with the keys 1, 2 and 4 the call
    fails before any request is made, but the error names part 4, the key
    that is out of range, and not the missing part 3. *)
Lemma FinishLargeFile_gap_counterexample :
  let l := mk_LargeFile "4_z27c" 30 {[ 1 := "a"; 2 := "b"; 4 := "c" ]} in
  let entries := [(1, "a"); (2, "b"); (4, "c")] in
  let send := λ _, (None, mk_FinishLargeFileResponse "" "" 0 "") in
  iteration_order (l_hashes l) entries ∧
  FinishLargeFile l entries send
  = (Returned (None, Some (PlainError "b2_finish_large_file: invalid index 4")), []) ∧
  FinishLargeFile l entries send ≠ (Returned (None, Some (invalid_index 3)), []).
Proof.
  split; [| split].
  - unfold iteration_order.
    change ([(1, "a"); (2, "b"); (4, "c")] ≡ₚ [(4, "c"); (2, "b"); (1, "a")]).
    etransitivity; [apply perm_swap |].
    etransitivity; [apply perm_skip, perm_swap |].
    apply perm_swap.
  - vm_compute. reflexivity.
  - vm_compute. discriminate.
Qed.

Lemma first_beyond (n : Z) (entries : list (Z * string)) :
  (∃ k v, (k, v) ∈ entries ∧ n < k) →
  ∃ pre k v post, entries = pre ++ (k, v) :: post ∧
                  Forall (λ kv : Z * string, kv.1 <= n) pre ∧ n < k.
Proof.
  induction entries as [| [k v] rest IH]; intros (k0 & v0 & Hin & Hbig).
  - inversion Hin.
  - destruct (decide (n < k)) as [Hk | Hk].
    + exists [], k, v, rest. split; [reflexivity | split; [constructor | exact Hk]].
    + destruct IH as (pre & k1 & v1 & post & -> & Hpre & Hbig1).
      * exists k0, v0. split; [| exact Hbig].
        apply elem_of_cons in Hin as [Heq | Hin]; [| exact Hin].
        inversion Heq; subst. lia.
      * exists ((k, v) :: pre), k1, v1, post.
        split; [reflexivity | split; [| exact Hbig1]].
        constructor; [simpl; lia | exact Hpre].
Qed.

Lemma fill_Hashes_first_beyond (pre : list (Z * string)) :
  ∀ (Hashes : list string) (k : Z) (v : string) (post : list (Z * string)),
    Forall (λ kv : Z * string, 1 <= kv.1 <= Z.of_nat (length Hashes)) pre →
    Z.of_nat (length Hashes) < k →
    fill_Hashes Hashes (pre ++ (k, v) :: post) = Returned (inl (invalid_index k)).
Proof.
  induction pre as [| [k' v'] pre IH]; intros Hashes k v post Hpre Hbig.
  - simpl. replace (Z.of_nat (length Hashes) <? k) with true
      by (symmetry; apply Z.ltb_lt; exact Hbig).
    reflexivity.
  - apply Forall_cons in Hpre as [Hk' Hpre]. simpl in Hk'. simpl.
    replace (Z.of_nat (length Hashes) <? k') with false by (symmetry; apply Z.ltb_ge; lia).
    replace ((0 <=? k' - 1) && (k' - 1 <? Z.of_nat (length Hashes))) with true
      by (symmetry; apply andb_true_iff; split; [apply Z.leb_le | apply Z.ltb_lt]; lia).
    apply IH; rewrite length_insert; assumption.
Qed.

(** C1, amended: when the keys of the hash mapping are part numbers from 1
    on and are not exactly [1 .. len], then for every order in which the map
    is iterated, [FinishLargeFile] returns an error before any request is
    made, and the error names the first key, in that order, that is larger
    than the number of entries. *)
Theorem FinishLargeFile_gap (l : LargeFile) (entries : list (Z * string))
    (send : FinishLargeFileRequest → option error * FinishLargeFileResponse) :
  iteration_order (l_hashes l) entries →
  one_based (l_hashes l) →
  ¬ dense (l_hashes l) →
  ∃ pre k v post,
    entries = pre ++ (k, v) :: post ∧
    Forall (λ kv : Z * string, kv.1 <= Z.of_nat (size (l_hashes l))) pre ∧
    Z.of_nat (size (l_hashes l)) < k ∧
    l_hashes l !! k = Some v ∧
    FinishLargeFile l entries send = (Returned (None, Some (invalid_index k)), []).
Proof.
  intros Hord Hpos Hgap.
  destruct (gap_key_beyond_size _ Hpos Hgap) as (k0 & v0 & Hin0 & Hbig0).
  destruct (first_beyond (Z.of_nat (size (l_hashes l))) entries)
    as (pre & k & v & post & Hsplit & Hpre & Hbig).
  { exists k0, v0. split; [| exact Hbig0]. rewrite Hord. exact Hin0. }
  assert (Hkeys : ∀ k' v', (k', v') ∈ entries → l_hashes l !! k' = Some v').
  { intros k' v' Hin. apply elem_of_map_to_list. rewrite <- Hord. exact Hin. }
  exists pre, k, v, post.
  split; [exact Hsplit |]. split; [exact Hpre |]. split; [exact Hbig |]. split.
  - apply Hkeys. rewrite Hsplit. apply elem_of_app. right. left.
  - unfold FinishLargeFile. rewrite Hsplit, fill_Hashes_first_beyond; [reflexivity | |].
    + rewrite length_replicate. rewrite Forall_forall in Hpre. apply Forall_forall.
      intros [k' v'] Hin. simpl. split; [| exact (Hpre (k', v') Hin)].
      apply Hpos. exists v'. apply Hkeys. rewrite Hsplit. apply elem_of_app. left. exact Hin.
    + rewrite length_replicate. exact Hbig.
Qed.

Lemma FinishLargeFile_gap_witness :
  let l := mk_LargeFile "4_z27c" 30 {[ 1 := "a"; 2 := "b"; 4 := "c" ]} in
  let entries := [(2, "b"); (4, "c"); (1, "a")] in
  let send := λ _, (None, mk_FinishLargeFileResponse "" "" 0 "") in
  ∃ pre k v post,
    entries = pre ++ (k, v) :: post ∧
    Forall (λ kv : Z * string, kv.1 <= Z.of_nat (size (l_hashes l))) pre ∧
    Z.of_nat (size (l_hashes l)) < k ∧
    l_hashes l !! k = Some v ∧
    FinishLargeFile l entries send = (Returned (None, Some (invalid_index k)), []).
Proof.
  intros l entries send.
  apply (FinishLargeFile_gap l entries send).
  - unfold iteration_order.
    change ([(2, "b"); (4, "c"); (1, "a")] ≡ₚ [(4, "c"); (2, "b"); (1, "a")]).
    apply perm_swap.
  - intros k [v Hkv]. apply elem_of_map_to_list in Hkv.
    change ((k, v) ∈ [(4, "c"); (2, "b"); (1, "a")]) in Hkv.
    repeat (apply elem_of_cons in Hkv as [Hkv | Hkv]; [inversion Hkv; lia |]).
    inversion Hkv.
  - intros Hdense.
    assert (H3 : is_Some (l_hashes l !! 3)) by (apply Hdense; vm_compute; split; congruence).
    destruct H3 as [v Hv]. vm_compute in Hv. discriminate Hv.
Defined.

(** The key that is named depends on the iteration order when several keys
    are out of range: with the keys 1, 5 and 7 it is 5 or 7. *)
Example FinishLargeFile_gap_order :
  let l := mk_LargeFile "4_z27c" 30 {[ 1 := "a"; 5 := "b"; 7 := "c" ]} in
  let send := λ _, (None, mk_FinishLargeFileResponse "" "" 0 "") in
  FinishLargeFile l [(1, "a"); (5, "b"); (7, "c")] send
  = (Returned (None, Some (invalid_index 5)), []) ∧
  FinishLargeFile l [(7, "c"); (1, "a"); (5, "b")] send
  = (Returned (None, Some (invalid_index 7)), []).
Proof. split; vm_compute; reflexivity. Qed.

(** ** Uploading all parts and finishing *)

Lemma UploadPart_success (l : LargeFile) (c : upload_call) :
  upload_succeeds c →
  UploadPart l (call_sha1 c) (call_size c) (call_index c) (call_transfer c)
  = Returned ((call_size c, None),
              {| l_ID := l_ID l;
                 l_size := int64 (l_size l + call_size c);
                 l_hashes := <[call_index c := resolved_sha1 c]> (l_hashes l) |}).
Proof.
  unfold upload_succeeds, request_returned, UploadPart, resolved_sha1.
  intros [Hret Herr].
  destruct (String.eqb (call_sha1 c) "hex_digits_at_end").
  - destruct Hret as [k ->]. rewrite Herr. reflexivity.
  - rewrite Herr. reflexivity.
Qed.

Lemma UploadParts_success (cs : list upload_call) :
  ∀ l, in_int64 (l_size l) →
       Forall upload_succeeds cs →
       NoDup (call_index <$> cs) →
       UploadParts l cs
       = Returned {| l_ID := l_ID l;
                     l_size := int64 (l_size l + total_size cs);
                     l_hashes := list_to_map (stored <$> cs) ∪ l_hashes l |}.
Proof.
  induction cs as [| c rest IH]; intros l Hrange Hok Hnd.
  - simpl. rewrite Z.add_0_r, int64_id by exact Hrange.
    rewrite (left_id ∅ (∪)). by destruct l.
  - apply Forall_cons in Hok as [Hc Hrest]. rewrite fmap_cons in Hnd.
    apply NoDup_cons in Hnd as [Hfresh Hnd].
    simpl. rewrite (UploadPart_success l c Hc).
    rewrite IH; [| apply int64_range | exact Hrest | exact Hnd]. simpl.
    f_equal. f_equal.
    + rewrite int64_add_l. f_equal. lia.
    + symmetry. rewrite <- insert_union_l. apply insert_union_r.
      apply not_elem_of_list_to_map_1.
      rewrite <- list_fmap_compose. exact Hfresh.
Qed.

Lemma total_size_Permutation (cs cs' : list upload_call) :
  cs ≡ₚ cs' → total_size cs = total_size cs'.
Proof.
  induction 1 as [| c l1 l2 _ IH | c1 c2 l0 | l1 l2 l3 _ IH1 _ IH2]; simpl; lia.
Qed.

Lemma fill_Hashes_dense (entries : list (Z * string)) :
  ∀ Hashes : list string,
    NoDup entries.*1 →
    (∀ k v, (k, v) ∈ entries → 1 <= k <= Z.of_nat (length Hashes)) →
    ∃ Hashes', fill_Hashes Hashes entries = Returned (inr Hashes') ∧
               length Hashes' = length Hashes ∧
               ∀ j : nat, Hashes' !! j
                 = match (list_to_map entries : gmap Z string) !! (Z.of_nat j + 1) with
                   | Some v => if decide (j < length Hashes)%nat then Some v else None
                   | None => Hashes !! j
                   end.
Proof.
  induction entries as [| [k v] rest IH]; intros Hashes Hnd Hin.
  - exists Hashes. split; [reflexivity | split; [reflexivity |]].
    intros j. simpl. rewrite lookup_empty. reflexivity.
  - rewrite fmap_cons in Hnd. apply NoDup_cons in Hnd as [Hfresh Hnd].
    assert (Hk : 1 <= k <= Z.of_nat (length Hashes)) by (apply (Hin k v); left).
    simpl.
    replace (Z.of_nat (length Hashes) <? k) with false by (symmetry; apply Z.ltb_ge; lia).
    replace ((0 <=? k - 1) && (k - 1 <? Z.of_nat (length Hashes))) with true
      by (symmetry; apply andb_true_iff; split; [apply Z.leb_le | apply Z.ltb_lt]; lia).
    destruct (IH (<[Z.to_nat (k - 1) := v]> Hashes) Hnd) as (Hashes' & Hres & Hlen & Hlook).
    { intros k' v' Hin'. rewrite length_insert. apply (Hin k' v'). right. exact Hin'. }
    rewrite length_insert in Hlen.
    exists Hashes'. split; [exact Hres | split; [exact Hlen |]].
    intros j. rewrite Hlook, length_insert.
    destruct (decide (k = Z.of_nat j + 1)) as [-> | Hne].
    + rewrite lookup_insert_eq.
      rewrite (not_elem_of_list_to_map_1 _ _ Hfresh).
      replace (Z.to_nat (Z.of_nat j + 1 - 1)) with j by lia.
      rewrite list_lookup_insert_eq by lia.
      destruct (decide (j < length Hashes)%nat); [reflexivity | lia].
    + rewrite lookup_insert_ne by exact Hne.
      destruct (list_to_map rest !! (Z.of_nat j + 1)); [reflexivity |].
      apply list_lookup_insert_ne. lia.
Qed.

Lemma FinishLargeFile_dense (l : LargeFile) (entries : list (Z * string))
    (send : FinishLargeFileRequest → option error * FinishLargeFileResponse) :
  iteration_order (l_hashes l) entries →
  dense (l_hashes l) →
  FinishLargeFile l entries send
  = (let b2req := {| req_ID := l_ID l; req_Hashes := Hashes_of (l_hashes l) |} in
     match send b2req with
     | (Some err, _) => (Returned (None, Some err), [b2req])
     | (None, b2resp) =>
       (Returned (Some {| File_Name := resp_Name b2resp;
                          File_Size := l_size l;
                          File_Timestamp := millitime (resp_Timestamp b2resp);
                          File_Status := resp_Action b2resp;
                          File_ID := resp_FileID b2resp |}, None), [b2req])
     end).
Proof.
  intros Hord Hdense. unfold iteration_order in Hord.
  destruct (fill_Hashes_dense entries (replicate (size (l_hashes l)) ""))
    as (Hashes' & Hres & Hlen & Hlook).
  - rewrite Hord. apply NoDup_fst_map_to_list.
  - intros k v Hin. rewrite length_replicate. apply Hdense. exists v.
    apply elem_of_map_to_list. rewrite <- Hord. exact Hin.
  - assert (Hmap : (list_to_map entries : gmap Z string) = l_hashes l).
    { symmetry. apply list_to_map_flip. symmetry. exact Hord. }
    assert (Heq : Hashes' = Hashes_of (l_hashes l)).
    { apply list_eq. intros j. rewrite Hlook, Hmap, length_replicate.
      unfold Hashes_of. rewrite list_lookup_fmap.
      destruct (decide (j < size (l_hashes l))%nat) as [Hlt | Hge].
      - rewrite lookup_seqZ_lt by lia. simpl.
        replace (1 + Z.of_nat j) with (Z.of_nat j + 1) by lia.
        destruct (l_hashes l !! (Z.of_nat j + 1)); [reflexivity |].
        simpl. apply lookup_replicate_2. exact Hlt.
      - rewrite lookup_seqZ_ge by lia. simpl.
        destruct (l_hashes l !! (Z.of_nat j + 1)); [reflexivity |].
        apply lookup_replicate_None. lia. }
    unfold FinishLargeFile. rewrite Hres, Heq. reflexivity.
Qed.

Lemma uploaded_dense (cs : list upload_call) (N : Z) :
  call_index <$> cs ≡ₚ seqZ 1 N →
  dense (list_to_map (stored <$> cs) ∪ ∅).
Proof.
  intros Hperm.
  assert (Hkeys : (stored <$> cs).*1 = call_index <$> cs).
  { rewrite <- list_fmap_compose. reflexivity. }
  assert (Hnd : NoDup (stored <$> cs).*1).
  { rewrite Hkeys, Hperm. apply NoDup_seqZ. }
  rewrite (right_id ∅ (∪)). intros k.
  rewrite map_size_list_to_map by exact Hnd.
  rewrite length_fmap, <- (length_fmap call_index), Hperm, length_seqZ.
  rewrite <- elem_of_dom, dom_list_to_map_L, elem_of_list_to_set, Hkeys, Hperm, elem_of_seqZ.
  lia.
Qed.

(** C4: successful [UploadPart] calls for the part numbers [1 .. N], each
    once, on a large file fresh from [StartLargeFile] leave the same large
    file in every order of completion; its size is the sum of the sizes of
    the calls, in 64-bit arithmetic, and equal to the sum whenever that fits
    in an [int64]; [FinishLargeFile] then passes the local check for every
    iteration order, makes one request with the hashes in part order and,
    when the request succeeds, returns a file with that size. *)
Theorem UploadParts_FinishLargeFile_size (id : string) (N : Z) (cs cs' : list upload_call) :
  Forall upload_succeeds cs →
  call_index <$> cs ≡ₚ seqZ 1 N →
  cs' ≡ₚ cs →
  ∃ l, UploadParts (StartLargeFile id) cs = Returned l ∧
       UploadParts (StartLargeFile id) cs' = Returned l ∧
       l_size l = int64 (total_size cs) ∧
       (in_int64 (total_size cs) → l_size l = total_size cs) ∧
       ∀ entries send,
         iteration_order (l_hashes l) entries →
         FinishLargeFile l entries send
         = (let b2req := {| req_ID := id; req_Hashes := Hashes_of (l_hashes l) |} in
            match send b2req with
            | (Some err, _) => (Returned (None, Some err), [b2req])
            | (None, b2resp) =>
              (Returned (Some {| File_Name := resp_Name b2resp;
                                 File_Size := l_size l;
                                 File_Timestamp := millitime (resp_Timestamp b2resp);
                                 File_Status := resp_Action b2resp;
                                 File_ID := resp_FileID b2resp |}, None), [b2req])
            end).
Proof.
  intros Hok Hidx Hperm.
  assert (Hnd : NoDup (call_index <$> cs)) by (rewrite Hidx; apply NoDup_seqZ).
  assert (H0 : in_int64 (l_size (StartLargeFile id))) by (unfold in_int64; simpl; lia).
  eexists. split; [apply (UploadParts_success cs _ H0 Hok Hnd) |].
  split; [| split; [| split]].
  - rewrite (UploadParts_success cs' _ H0); [| by rewrite Hperm | by rewrite Hperm].
    simpl. f_equal. f_equal.
    + f_equal. apply total_size_Permutation. exact Hperm.
    + f_equal. apply list_to_map_proper.
      * rewrite <- list_fmap_compose. change (NoDup (call_index <$> cs')). by rewrite Hperm.
      * by rewrite Hperm.
  - reflexivity.
  - intros Hr. simpl. apply int64_id. exact Hr.
  - intros entries send Hord.
    apply FinishLargeFile_dense; [exact Hord |].
    simpl. apply (uploaded_dense cs N Hidx).
Qed.

Lemma UploadParts_FinishLargeFile_size_witness :
  let tail := mk_upload_call "hex_digits_at_end" 3 2
                (mk_transfer [mk_inner_read (String.list_byte_of_string "abc") 3 None] None) in
  let cs := [mk_upload_call "aa" 100 1 (mk_transfer [] None); tail; mk_upload_call "cc" 50 3 (mk_transfer [] None)] in
  let cs' := [mk_upload_call "cc" 50 3 (mk_transfer [] None); mk_upload_call "aa" 100 1 (mk_transfer [] None); tail] in
  ∃ l, UploadParts (StartLargeFile "4_z27c") cs = Returned l ∧
       UploadParts (StartLargeFile "4_z27c") cs' = Returned l ∧
       l_size l = 153.
Proof.
  intros tail cs cs'.
  destruct (UploadParts_FinishLargeFile_size "4_z27c" 3 cs cs') as (l & H1 & H2 & H3 & H4 & _).
  - repeat constructor. exists (mk_keepFinalBytes 0 (final_40 (String.list_byte_of_string "abc"))).
    vm_compute. reflexivity.
  - reflexivity.
  - unfold cs, cs'. etransitivity; [apply perm_swap |]. apply perm_skip, perm_swap.
  - exists l. split; [exact H1 | split; [exact H2 |]].
    apply H4. vm_compute. split; congruence.
Defined.

(** ** The retry loop *)

Import Retry.

Lemma Do_loop_last_wait (fuel : nat) (w : World) :
  ∀ config n i res tr m d cerr,
    Do_loop fuel w config n i = Some (res, tr) →
    last tr = Some (Waited m d (CtxDone cerr)) →
    res = Some cerr.
Proof.
  induction fuel as [| fuel IH]; intros config n i res tr m d cerr Hrun Hlast.
  - discriminate Hrun.
  - simpl in Hrun.
    destruct (retryableFunc w i) as [err |]; [| by inversion Hrun; subst].
    destruct (negb _ && _); [by inversion Hrun; subst |].
    destruct (negb (retryIf _ _ _)); [by inversion Hrun; subst |].
    destruct (onRetry _ _ _); [by inversion Hrun; subst |].
    destruct (select_wait _ _ _) as [| cerr'].
    + destruct (Do_loop fuel w _ _ (S i)) as [[res' tr'] |] eqn:Hrec; [| discriminate].
      inversion Hrun; subst res tr.
      destruct tr' as [| ev tr'']; [discriminate Hlast |].
      eapply IH; [exact Hrec | exact Hlast].
    + inversion Hrun; subst res tr. simpl in Hlast. congruence.
Qed.

(** C7: [Do] returns the error of a context that is already done without
    calling the operation; a run whose last step is a wait that the context
    ended returns the error of the context; and every pass of the loop that
    reaches the wait while the context ends returns the error of the
    context, whatever error the operation gave. *)
Theorem Do_context_cancellation (fuel : nat) (w : World) (opts : list Retry.Option) :
  (∀ err, ctx_Err w = Some err → Do fuel w opts = Some (Some err, [])) ∧
  (∀ res tr n d cerr,
     Do fuel w opts = Some (res, tr) →
     last tr = Some (Waited n d (CtxDone cerr)) →
     res = Some cerr) ∧
  (∀ config n i err cerr,
     let n' := uint64 (n + 1) in
     let attempts' := dynamicAttempts config n' (attempts config) err in
     let delay' := dynamicDelay config n' (delay config) err in
     retryableFunc w i = Some err →
     attempts' = 0 ∨ n' < attempts' →
     retryIf config n' err = true →
     onRetry config n' err = None →
     select_wait w i delay' = CtxDone cerr →
     Do_loop (S fuel) w config n i
     = Some (Some cerr, [Called n'; Waited n' delay' (CtxDone cerr)])).
Proof.
  split; [| split].
  - intros err Herr. unfold Do. rewrite Herr. reflexivity.
  - intros res tr n d cerr. unfold Do.
    destruct (ctx_Err w); [intros Hrun Hlast; inversion Hrun; subst; discriminate |].
    apply Do_loop_last_wait.
  - intros config n i err cerr n' attempts' delay' Hop Hatt Hif Hon Hsel.
    simpl. rewrite Hop. fold n' attempts'.
    replace (negb (attempts' =? 0) && (n' >=? attempts')) with false.
    + rewrite Hif. simpl. rewrite Hon. fold delay'. rewrite Hsel. reflexivity.
    + symmetry. destruct Hatt as [-> | Hlt]; [reflexivity |].
      apply andb_false_iff. right. rewrite Z.geb_leb. apply Z.leb_gt. exact Hlt.
Qed.

Lemma Do_context_cancellation_witness :
  let w := mk_World None (λ _, Some (PlainError "connection reset"))
                    (λ i _, if Nat.eqb i 1 then CtxDone Canceled else AfterFired) in
  (∃ res tr, Do 5 w [Attempts 3] = Some (res, tr) ∧
             last tr = Some (Waited 2 0 (CtxDone Canceled)) ∧ res = Some Canceled) ∧
  Do 5 (mk_World (Some DeadlineExceeded) (retryableFunc w) (select_wait w)) [Attempts 3]
  = Some (Some DeadlineExceeded, []).
Proof.
  intros w. split.
  - exists (Some Canceled),
      [Called 1; Waited 1 0 AfterFired; Called 2; Waited 2 0 (CtxDone Canceled)].
    split; [reflexivity |]. split; [reflexivity |].
    apply (proj1 (proj2 (Do_context_cancellation 5 w [Attempts 3]))
             (Some Canceled)
             [Called 1; Waited 1 0 AfterFired; Called 2; Waited 2 0 (CtxDone Canceled)]
             2 0 Canceled); reflexivity.
  - apply (proj1 (Do_context_cancellation 5
             (mk_World (Some DeadlineExceeded) (retryableFunc w) (select_wait w))
             [Attempts 3]) DeadlineExceeded).
    reflexivity.
Defined.

(** ** The backoff helper *)




Example Action_upload_part_503 :
  Action (Some (B2Err (mk_b2err "busy" "b2_upload_part" 0 503 ""))) = AttemptNewUpload.
Proof. reflexivity. Qed.

Example Action_upload_part_503_retry_after :
  Action (Some (B2Err (mk_b2err "busy" "b2_upload_part" 5 503 ""))) = Retry.
Proof. reflexivity. Qed.

(** * Further properties *)

Import Cleanup.

Ltac split_bools :=
  repeat match goal with
  | |- context [Z.gtb ?a ?b] => destruct (Z.gtb a b) eqn:?; simpl
  | |- context [Z.geb ?a ?b] => destruct (Z.geb a b) eqn:?; simpl
  | |- context [Z.ltb ?a ?b] => destruct (Z.ltb a b) eqn:?; simpl
  | |- context [Z.eqb ?a ?b] => destruct (Z.eqb a b) eqn:?; simpl
  | |- context [String.eqb ?a ?b] => destruct (String.eqb a b) eqn:?; simpl
  | |- context [String.prefix ?a ?b] => destruct (String.prefix a b) eqn:?; simpl
  end.

Ltac bools_to_props :=
  repeat match goal with
  | H : Z.gtb _ _ = true |- _ => rewrite Z.gtb_ltb in H; apply Z.ltb_lt in H
  | H : Z.gtb _ _ = false |- _ => rewrite Z.gtb_ltb in H; apply Z.ltb_ge in H
  | H : Z.geb _ _ = true |- _ => rewrite Z.geb_leb in H; apply Z.leb_le in H
  | H : Z.geb _ _ = false |- _ => rewrite Z.geb_leb in H; apply Z.leb_gt in H
  | H : Z.ltb _ _ = true |- _ => apply Z.ltb_lt in H
  | H : Z.ltb _ _ = false |- _ => apply Z.ltb_ge in H
  | H : Z.eqb _ _ = true |- _ => apply Z.eqb_eq in H
  | H : Z.eqb _ _ = false |- _ => apply Z.eqb_neq in H
  | H : String.eqb _ _ = true |- _ => apply String.eqb_eq in H
  | H : String.eqb _ _ = false |- _ => apply String.eqb_neq in H
  end.

Ltac classify :=
  unfold Action, MaxReuploads, MaxRetries, upload_method; simpl;
  split_bools; bools_to_props.

(** X2: [Action] recommends [ReAuthenticate] for exactly the errors without a
    positive Retry-After value, with status 401, whose method is neither
    [b2_authorize_account] nor one of the two upload calls. *)
Theorem Action_ReAuthenticate_iff (e : b2err) :
  Action (Some (B2Err e)) = ReAuthenticate ↔
  retry e <= 0 ∧ code e = 401 ∧ method e ≠ "b2_authorize_account" ∧ ¬ upload_method e.
Proof.
  classify; (split; [intros H; try discriminate H; repeat split; try lia; try assumption;
                      try (intros [? | ?]; congruence)
                    | intros (? & ? & ? & Hup); try lia; try congruence;
                      try (exfalso; apply Hup; tauto)]).
Qed.

(** X3: [Action] recommends [Retry] for exactly the errors with a positive
    Retry-After value, with status 429, or with status 500 or 503 from a
    method that is not an upload call. *)
Theorem Action_Retry_iff (e : b2err) :
  Action (Some (B2Err e)) = Retry ↔
  0 < retry e ∨ code e = 429 ∨ ((code e = 500 ∨ code e = 503) ∧ ¬ upload_method e).
Proof.
  classify;
    (split; [intros H; try discriminate H; try (left; lia); try (right; left; lia);
             try (right; right; split; [lia | intros [? | ?]; congruence])
            | intros [? | [? | [[? | ?] Hup]]]; try reflexivity; try lia;
              try (exfalso; apply Hup; tauto)]).
Qed.

(** X4: when [Action] recommends [AttemptNewUpload], either the method is an
    upload call, with 5 re-uploads and 20 retries allowed, or the status is
    408 from another method, for which [MaxReuploads] allows none. *)
Theorem AttemptNewUpload_budget (e : b2err) :
  Action (Some (B2Err e)) = AttemptNewUpload →
  (upload_method e ∧ MaxReuploads (Some (B2Err e)) = 5 ∧ MaxRetries (Some (B2Err e)) = 20)
  ∨ (code e = 408 ∧ ¬ upload_method e ∧ MaxReuploads (Some (B2Err e)) = 0).
Proof.
  classify; intros H; try discriminate H;
    try (left; repeat split; tauto);
    try (right; repeat split; try lia; intros [? | ?]; congruence).
Qed.

Lemma AttemptNewUpload_budget_witness :
  let e := mk_b2err "request timed out" "b2_list_file_names" 0 408 "" in
  (upload_method e ∧ MaxReuploads (Some (B2Err e)) = 5 ∧ MaxRetries (Some (B2Err e)) = 20)
  ∨ (code e = 408 ∧ ¬ upload_method e ∧ MaxReuploads (Some (B2Err e)) = 0).
Proof.
  intros e. apply (AttemptNewUpload_budget e). reflexivity.
Defined.

(** X1: an error with a positive Retry-After value is classified [Retry],
    and [Base.Backoff] is that many seconds whenever they fit in a duration. *)
Theorem Action_Retry_After (e : b2err) :
  0 < retry e →
  Action (Some (B2Err e)) = Retry ∧
  (retry e * 1000000000 < 2 ^ 63 → Base.Backoff (Some (B2Err e)) = retry e * 1000000000).
Proof.
  intros Hr. split.
  - unfold Action. simpl.
    replace (retry e >? 0) with true by (symmetry; rewrite Z.gtb_ltb; apply Z.ltb_lt; exact Hr).
    reflexivity.
  - intros Hfit. unfold Base.Backoff. simpl. apply int64_id. unfold in_int64. lia.
Qed.

Lemma Action_Retry_After_witness :
  let e := mk_b2err "slow down" "b2_upload_part" 3 503 "" in
  Action (Some (B2Err e)) = Retry ∧
  (retry e * 1000000000 < 2 ^ 63 → Base.Backoff (Some (B2Err e)) = retry e * 1000000000).
Proof.
  intros e. apply (Action_Retry_After e). simpl. lia.
Defined.

(** X5: the budgets of what [makeNetRequest] returns for a failed round
    trip: a transport error that was wrapped gets [Retry] with one second of
    backoff, 5 retries and no re-upload; a context error or an
    unknown-authority error gets [Punt], no backoff, no retry, and the 5
    re-uploads of an error that is not a [b2err]. *)
Theorem makeNetRequest_failure_policy {Resp : Type} (resp : option Resp) (err : error) :
  let r := snd (makeNetRequest (resp, Some err)) in
  if is_context_error err || errors_As_UnknownAuthority err then
    Action r = Punt ∧ Base.Backoff r = 0 ∧ MaxRetries r = 0 ∧ MaxReuploads r = 5
  else
    Action r = Retry ∧ Base.Backoff r = 1000000000 ∧ MaxRetries r = 5 ∧ MaxReuploads r = 0.
Proof.
  destruct err as [e | | | text | text inner | text]; simpl; try (repeat split; reflexivity).
  destruct (errors_As_UnknownAuthority inner) eqn:Hin; repeat split; reflexivity.
Qed.

Section mkErr_properties.
Variable ParseInt : string → Z * option error.
Variable Unmarshal : list Byte.byte → ErrorMessage * option error.

Lemma mkErr_fields (resp : Response) :
  ∃ e, mkErr ParseInt Unmarshal resp = B2Err e ∧
       code e = StatusCode resp ∧ method e = Blazer_Method resp ∧
       retry e = (if String.eqb (Retry_After resp) "" then 0
                  else match ParseInt (Retry_After resp) with
                       | (r, None) => r
                       | (_, Some _) => 0
                       end).
Proof.
  unfold mkErr. destruct (Body resp) as [data err].
  destruct (Unmarshal data) as [m uerr].
  eexists. split; [reflexivity |]. simpl. repeat split.
  destruct (String.eqb (Retry_After resp) ""); simpl; [reflexivity |].
  destruct (ParseInt (Retry_After resp)) as [r [perr |]]; reflexivity.
Qed.

(** X6: the error that [mkErr] builds from a response whose Retry-After
    header parses to a positive number is classified [Retry], whatever the
    status and the method, with that many seconds of backoff. *)
Theorem mkErr_Retry_After (resp : Response) (r : Z) :
  Retry_After resp ≠ "" →
  ParseInt (Retry_After resp) = (r, None) →
  0 < r →
  Action (Some (mkErr ParseInt Unmarshal resp)) = Retry ∧
  (r * 1000000000 < 2 ^ 63 →
   Base.Backoff (Some (mkErr ParseInt Unmarshal resp)) = r * 1000000000).
Proof.
  intros Hne Hparse Hr.
  destruct (mkErr_fields resp) as (e & -> & _ & _ & Hretry).
  apply String.eqb_neq in Hne. rewrite Hne, Hparse in Hretry.
  split.
  - unfold Action. simpl. rewrite Hretry.
    replace (r >? 0) with true by (symmetry; rewrite Z.gtb_ltb; apply Z.ltb_lt; exact Hr).
    reflexivity.
  - intros Hfit. unfold Base.Backoff. simpl. rewrite Hretry. apply int64_id. unfold in_int64. lia.
Qed.

(** X7: a Retry-After header that is absent, empty or not a number is
    ignored: the error of [mkErr] has no backoff and is classified by its
    status, so that a 5xx answer to an upload gives [AttemptNewUpload]. *)
Theorem mkErr_ignores_bad_Retry_After (resp : Response) :
  Retry_After resp = "" ∨ snd (ParseInt (Retry_After resp)) ≠ None →
  Base.Backoff (Some (mkErr ParseInt Unmarshal resp)) = 0 ∧
  (500 <= StatusCode resp < 600 →
   Blazer_Method resp = "b2_upload_file" ∨ Blazer_Method resp = "b2_upload_part" →
   Action (Some (mkErr ParseInt Unmarshal resp)) = AttemptNewUpload).
Proof.
  intros Hbad.
  destruct (mkErr_fields resp) as (e & -> & Hcode & Hmeth & Hretry).
  assert (H0 : retry e = 0).
  { rewrite Hretry. destruct Hbad as [-> | Hbad]; [reflexivity |].
    destruct (String.eqb (Retry_After resp) ""); [reflexivity |].
    destruct (ParseInt (Retry_After resp)) as [r [perr |]]; [reflexivity |].
    destruct (Hbad eq_refl). }
  split.
  - unfold Base.Backoff. simpl. rewrite H0. reflexivity.
  - intros Hs Hm. unfold Action. simpl. rewrite H0, Hcode, Hmeth. simpl.
    replace (StatusCode resp >=? 500) with true by (symmetry; apply Z.geb_le; lia).
    replace (StatusCode resp <? 600) with true by (symmetry; apply Z.ltb_lt; lia).
    destruct Hm as [-> | ->]; reflexivity.
Qed.
End mkErr_properties.

Lemma UploadPart_failure (l : LargeFile) (c : upload_call) :
  call_returned c → succeeded c = false →
  ∃ res, UploadPart l (call_sha1 c) (call_size c) (call_index c) (call_transfer c)
         = Returned (res, l).
Proof.
  unfold call_returned, request_returned, succeeded, UploadPart. intros Hret Hs.
  destruct (transfer_err (call_transfer c)) as [err |]; [| discriminate Hs].
  destruct (String.eqb (call_sha1 c) "hex_digits_at_end").
  - destruct Hret as [k ->]. eexists. reflexivity.
  - eexists. reflexivity.
Qed.

(** X8: calls of [UploadPart] that fail leave no trace in a sequence: the
    large file ends as if only the successful calls had been made. *)
Theorem UploadParts_skips_failures (cs : list upload_call) :
  ∀ l, Forall call_returned cs →
       UploadParts l cs = UploadParts l (List.filter succeeded cs).
Proof.
  induction cs as [| c rest IH]; intros l Hret; [reflexivity |].
  apply Forall_cons in Hret as [Hc Hrest].
  cbn [List.filter]. destruct (succeeded c) eqn:Hs.
  - cbn [UploadParts].
    rewrite (UploadPart_success l c); [apply IH; exact Hrest |].
    split; [exact Hc |]. unfold succeeded in Hs.
    destruct (transfer_err (call_transfer c)); [discriminate Hs | reflexivity].
  - cbn [UploadParts].
    destruct (UploadPart_failure l c Hc Hs) as [res ->]. apply IH. exact Hrest.
Qed.

(** X9: successful calls with any part numbers, repeated or not: the size
    grows by the size of every call, also of a part number that was uploaded
    before, and each part number keeps the hash of its last call. *)
Theorem UploadParts_last_write_wins (cs : list upload_call) :
  ∀ l, in_int64 (l_size l) →
       Forall upload_succeeds cs →
       UploadParts l cs
       = Returned {| l_ID := l_ID l;
                     l_size := int64 (l_size l + total_size cs);
                     l_hashes := list_to_map (rev (stored <$> cs)) ∪ l_hashes l |}.
Proof.
  induction cs as [| c rest IH]; intros l Hrange Hok.
  - simpl. rewrite Z.add_0_r, int64_id by exact Hrange.
    rewrite (left_id ∅ (∪)). by destruct l.
  - apply Forall_cons in Hok as [Hc Hrest].
    cbn [UploadParts]. rewrite (UploadPart_success l c Hc).
    rewrite IH; [| apply int64_range | exact Hrest]. cbn [l_ID l_size l_hashes].
    f_equal. f_equal.
    + rewrite int64_add_l. f_equal. simpl. lia.
    + rewrite fmap_cons. cbn [rev]. rewrite list_to_map_app.
      rewrite <- (assoc_L (∪)). f_equal. simpl.
      rewrite <- insert_union_l, (left_id_L ∅ (∪)). reflexivity.
Qed.

Lemma fill_Hashes_below_one (entries : list (Z * string)) :
  ∀ Hashes : list string,
    (∀ k v, (k, v) ∈ entries → k <= Z.of_nat (length Hashes)) →
    (∃ k v, (k, v) ∈ entries ∧ k <= 0) →
    fill_Hashes Hashes entries = Panicked.
Proof.
  induction entries as [| [k v] rest IH]; intros Hashes Hle (k0 & v0 & Hin & Hbad).
  - inversion Hin.
  - assert (Hk : k <= Z.of_nat (length Hashes)) by (apply (Hle k v); left).
    simpl.
    replace (Z.of_nat (length Hashes) <? k) with false by (symmetry; apply Z.ltb_ge; lia).
    destruct (0 <=? k - 1) eqn:Hpos; [| reflexivity].
    apply Z.leb_le in Hpos.
    replace (k - 1 <? Z.of_nat (length Hashes)) with true by (symmetry; apply Z.ltb_lt; lia).
    simpl. apply IH.
    + intros k' v' Hin'. rewrite length_insert. apply (Hle k' v'). right. exact Hin'.
    + exists k0, v0. split; [| exact Hbad].
      apply elem_of_cons in Hin as [Heq | Hin]; [| exact Hin].
      inversion Heq; subst. lia.
Qed.

(** X11: a hash mapping with a key below 1 and no key above the number of
    entries makes [FinishLargeFile] panic on the index [k-1], in every
    iteration order and before any request. *)
Theorem FinishLargeFile_key_below_one (l : LargeFile) (entries : list (Z * string))
    (send : FinishLargeFileRequest → option error * FinishLargeFileResponse) :
  iteration_order (l_hashes l) entries →
  (∀ k, is_Some (l_hashes l !! k) → k <= Z.of_nat (size (l_hashes l))) →
  (∃ k, is_Some (l_hashes l !! k) ∧ k <= 0) →
  FinishLargeFile l entries send = (Panicked, []).
Proof.
  intros Hord Hle (k0 & [v0 Hk0] & Hbad).
  unfold FinishLargeFile. rewrite fill_Hashes_below_one; [reflexivity | |].
  - intros k v Hin. rewrite length_replicate. apply Hle. exists v.
    apply elem_of_map_to_list. rewrite <- Hord. exact Hin.
  - exists k0, v0. split; [| exact Hbad]. rewrite Hord.
    apply elem_of_map_to_list. exact Hk0.
Qed.

(** X12: for part numbers from 1 on, [FinishLargeFile] makes no request
    exactly when the keys are not [1 .. len], in every iteration order. *)
Theorem FinishLargeFile_request_iff_dense (l : LargeFile) (entries : list (Z * string))
    (send : FinishLargeFileRequest → option error * FinishLargeFileResponse) :
  iteration_order (l_hashes l) entries →
  one_based (l_hashes l) →
  (snd (FinishLargeFile l entries send) = [] ↔ ¬ dense (l_hashes l)).
Proof.
  intros Hord Hpos. split.
  - intros Hnone Hdense.
    rewrite (FinishLargeFile_dense l entries send Hord Hdense) in Hnone.
    cbv zeta in Hnone. destruct (send _) as [[err |] b2resp]; discriminate Hnone.
  - intros Hgap.
    destruct (gap_key_beyond_size _ Hpos Hgap) as (k0 & v0 & Hin0 & Hbig0).
    destruct (fill_Hashes_gap entries (replicate (size (l_hashes l)) ""))
      as (k & v & Hin & Hbig & Hres).
    + intros k v Hin. apply Hpos. exists v.
      apply elem_of_map_to_list. rewrite <- Hord. exact Hin.
    + exists k0, v0. rewrite length_replicate. split; [| exact Hbig0].
      rewrite Hord. exact Hin0.
    + unfold FinishLargeFile. rewrite Hres. reflexivity.
Qed.

Lemma resumed_dense (seen : gmap Z string) (cs : list upload_call) :
  dense seen →
  call_index <$> cs ≡ₚ seqZ (Z.of_nat (size seen) + 1) (Z.of_nat (length cs)) →
  dense (list_to_map (stored <$> cs) ∪ seen).
Proof.
  intros Hseen Hperm.
  assert (Hkeys : (stored <$> cs).*1 = call_index <$> cs).
  { rewrite <- list_fmap_compose. reflexivity. }
  assert (Hnd : NoDup (stored <$> cs).*1).
  { rewrite Hkeys, Hperm. apply NoDup_seqZ. }
  assert (Hnew : ∀ k, is_Some ((list_to_map (stored <$> cs) : gmap Z string) !! k)
                      ↔ Z.of_nat (size seen) + 1 <= k
                        < Z.of_nat (size seen) + 1 + Z.of_nat (length cs)).
  { intros k.
    rewrite <- elem_of_dom, dom_list_to_map_L, elem_of_list_to_set, Hkeys, Hperm.
    apply elem_of_seqZ. }
  assert (Hdisj : (list_to_map (stored <$> cs) : gmap Z string) ##ₘ seen).
  { apply map_disjoint_spec. intros k x y Hx Hy.
    assert (H1 : is_Some ((list_to_map (stored <$> cs) : gmap Z string) !! k)) by eauto.
    assert (H2 : is_Some (seen !! k)) by eauto.
    apply Hnew in H1. apply Hseen in H2. lia. }
  intros k.
  rewrite map_size_disj_union by exact Hdisj.
  rewrite map_size_list_to_map by exact Hnd. rewrite length_fmap.
  rewrite lookup_union_is_Some, Hnew, (Hseen k). lia.
Qed.

(** X10: a large file resumed by [CompileParts] from the parts [1 .. M] and
    a size, followed by successful uploads of the parts [M+1 .. N] in any
    order: [FinishLargeFile] passes the local check, sends the hashes of all
    [N] parts in part order, and a file it returns has the resumed size plus
    the sizes of the new parts. *)
Theorem CompileParts_resume_finish (f : File) (size0 : Z) (seen : gmap Z string)
    (cs : list upload_call) :
  in_int64 size0 →
  dense seen →
  Forall upload_succeeds cs →
  call_index <$> cs ≡ₚ seqZ (Z.of_nat (size seen) + 1) (Z.of_nat (length cs)) →
  ∃ l, UploadParts (CompileParts f size0 seen) cs = Returned l ∧
       l_size l = int64 (size0 + total_size cs) ∧
       l_hashes l = list_to_map (stored <$> cs) ∪ seen ∧
       ∀ entries send,
         iteration_order (l_hashes l) entries →
         FinishLargeFile l entries send
         = (let b2req := {| req_ID := File_ID f; req_Hashes := Hashes_of (l_hashes l) |} in
            match send b2req with
            | (Some err, _) => (Returned (None, Some err), [b2req])
            | (None, b2resp) =>
              (Returned (Some {| File_Name := resp_Name b2resp;
                                 File_Size := int64 (size0 + total_size cs);
                                 File_Timestamp := millitime (resp_Timestamp b2resp);
                                 File_Status := resp_Action b2resp;
                                 File_ID := resp_FileID b2resp |}, None), [b2req])
            end).
Proof.
  intros Hrange Hseen Hok Hperm.
  assert (Hnd : NoDup (call_index <$> cs)) by (rewrite Hperm; apply NoDup_seqZ).
  pose proof (resumed_dense seen cs Hseen Hperm) as Hdense.
  set (l := mk_LargeFile (File_ID f) (int64 (size0 + total_size cs))
                         (list_to_map (stored <$> cs) ∪ seen)).
  exists l. split; [| split; [reflexivity | split; [reflexivity |]]].
  - exact (UploadParts_success cs (CompileParts f size0 seen) Hrange Hok Hnd).
  - intros entries send Hord.
    exact (FinishLargeFile_dense l entries send Hord Hdense).
Qed.

(** X13: the large file of [AsLargeFile] has a nil map of hashes: an
    [UploadPart] on it returns the error of a failed request, and panics
    after a successful one; [FinishLargeFile] on it sends an empty array of
    hashes. *)
Theorem AsLargeFile_no_uploads (f : File) (sha1 : string) (size index : Z) (t : transfer) :
  request_returned sha1 size t →
  UploadPartN (AsLargeFile f) sha1 size index t
  = match transfer_err t with
    | Some err => Returned ((0, Some err), AsLargeFile f)
    | None => Panicked
    end
  ∧ ∀ send, snd (FinishLargeFileN (AsLargeFile f) [] send)
            = [{| req_ID := File_ID f; req_Hashes := [] |}].
Proof.
  intros Hret. split.
  - unfold UploadPartN, UploadPart, request_returned in *.
    destruct (String.eqb sha1 "hex_digits_at_end").
    + destruct Hret as [k ->]. destruct (transfer_err t); reflexivity.
    + destruct (transfer_err t); reflexivity.
  - intros send. unfold FinishLargeFileN, FinishLargeFile. simpl.
    destruct (send _) as [[err |] b2resp]; reflexivity.
Qed.

(** X14: a [Read] whose inner read delivers more bytes than [remain], also
    when [remain] is negative from the start, panics. *)
Theorem Read_overrun_panics (k : keepFinalBytes) (p : list Byte.byte) (n : Z)
    (err : option error) :
  - 2 ^ 61 <= remain k → 0 <= n < 2 ^ 61 →
  remain k < n →
  Read k p n err = Panicked.
Proof.
  intros Hrem Hn Hover. unfold Read, Read_indices.
  rewrite (int64_id (remain k - n)) by (unfold in_int64; lia).
  rewrite (int64_id (-40 + remain k)) by (unfold in_int64; lia).
  rewrite (int64_id (40 - remain k)) by (unfold in_int64; lia).
  rewrite (int64_id (n - remain k)) by (unfold in_int64; lia).
  rewrite (int64_id (n - remain k + 40)) by (unfold in_int64; lia).
  replace (remain k - n >? 40) with false
    by (symmetry; rewrite Z.gtb_ltb; apply Z.ltb_ge; lia).
  assert (Hke : slice_in_range (if 40 - remain k <? 0 then 0 else 40 - remain k)
                               (n - remain k + 40) 40 = false).
  { unfold slice_in_range. rewrite !andb_false_iff. right. apply Z.leb_gt. lia. }
  rewrite Hke. reflexivity.
Qed.

(** X15: a successful [UploadPart] with the sentinel hash whose body
    delivers exactly [size] bytes stores as the hash of the part the last 40
    bytes of the body, after zero bytes when the body is shorter; for size 0
    the body is not read at all. *)
Theorem UploadPart_deferred_hash (l : LargeFile) (stream : list Byte.byte) (index : Z)
    (t : transfer) :
  Z.of_nat (length stream) < 2 ^ 63 →
  Forall reader_contract (reads_of_body (Z.of_nat (length stream)) t) →
  concat (delivered <$> reads_of_body (Z.of_nat (length stream)) t) = stream →
  transfer_err t = None →
  UploadPart l "hex_digits_at_end" (Z.of_nat (length stream)) index t
  = Returned ((Z.of_nat (length stream), None),
              {| l_ID := l_ID l;
                 l_size := int64 (l_size l + Z.of_nat (length stream));
                 l_hashes := <[index := String.string_of_list_byte (final_40 stream)]>
                               (l_hashes l) |}).
Proof.
  intros Hlen Hok Hcat Herr. unfold UploadPart. simpl.
  rewrite (Read_all_seen _ stream 0); [| exact Hlen | lia | exact Hok | | |].
  - rewrite Herr.
    assert (Htot : total_read (reads_of_body (Z.of_nat (length stream)) t)
                   = Z.of_nat (length stream))
      by (rewrite <- length_concat_delivered, Hcat by exact Hok; reflexivity).
    cbn [sha]. rewrite Z.add_0_l, Htot, seen_all. reflexivity.
  - cbn [remain new_keepFinalBytes]. lia.
  - symmetry. apply seen_0.
  - exists []. rewrite app_nil_r, Hcat. reflexivity.
Qed.

Lemma Do_loop_attempts_exhausted (w : World) (a d : Z) :
  a < 2 ^ 64 →
  (∀ i, is_Some (retryableFunc w i)) →
  (∀ i d', select_wait w i d' = AfterFired) →
  ∀ (k : nat) (fuel : nat) (i : nat),
    (k < fuel)%nat →
    Z.of_nat i + Z.of_nat k + 1 = a →
    ∃ tr, Do_loop fuel w (Delay d (Attempts a newDefaultRetryConfig)) (Z.of_nat i) i
          = Some (retryableFunc w (i + k), tr) ∧
          call_count tr = S k ∧ wait_count tr = k.
Proof.
  intros Ha Hfail Hfire.
  induction k as [| k IH]; intros fuel i Hfuel Hsum;
    (destruct fuel as [| fuel]; [lia |]);
    destruct (Hfail i) as [err Herr];
    assert (Hn : uint64 (Z.of_nat i + 1) = Z.of_nat i + 1)
      by (unfold uint64; apply Z.mod_small; lia).
  - exists [Called (Z.of_nat i + 1)].
    cbn [Do_loop]. rewrite Herr, Hn. cbn.
    replace (a =? 0) with false by (symmetry; apply Z.eqb_neq; lia).
    replace (Z.of_nat i + 1 >=? a) with true by (symmetry; apply Z.geb_le; lia).
    rewrite Nat.add_0_r, Herr. repeat split; reflexivity.
  - destruct (IH fuel (S i)) as (tr & Hrun & Hcalls & Hwaits); [lia | lia |].
    exists (Called (Z.of_nat i + 1) :: Waited (Z.of_nat i + 1) d AfterFired :: tr).
    cbn [Do_loop]. rewrite Herr, Hn. cbn.
    replace (a =? 0) with false by (symmetry; apply Z.eqb_neq; lia).
    replace (Z.of_nat i + 1 >=? a) with false
      by (symmetry; rewrite Z.geb_leb; apply Z.leb_gt; lia).
    cbn. rewrite Hfire.
    replace (Z.of_nat i + 1) with (Z.of_nat (S i)) by lia.
    change (Do_loop fuel w _ (Z.of_nat (S i)) (S i))
      with (Do_loop fuel w (Delay d (Attempts a newDefaultRetryConfig)) (Z.of_nat (S i)) (S i)).
    rewrite Hrun.
    replace (i + S k)%nat with (S i + k)%nat by lia.
    split; [reflexivity |]. split.
    + unfold call_count in *. cbn. rewrite Hcalls. reflexivity.
    + unfold wait_count in *. cbn. rewrite Hwaits. reflexivity.
Qed.

(** X16: with [Attempts(a)], [a >= 1], an operation that always fails is
    called exactly [a] times, with [a-1] waits, and [Do] returns the error of
    the last call. *)
Theorem Do_attempts_exhausted (w : World) (a d : Z) (fuel : nat) :
  ctx_Err w = None →
  1 <= a < 2 ^ 64 →
  (∀ i, is_Some (retryableFunc w i)) →
  (∀ i d', select_wait w i d' = AfterFired) →
  (Z.to_nat a <= fuel)%nat →
  ∃ tr, Do fuel w [Attempts a; Delay d] = Some (retryableFunc w (Z.to_nat a - 1), tr) ∧
        call_count tr = Z.to_nat a ∧ wait_count tr = (Z.to_nat a - 1)%nat.
Proof.
  intros Hctx Ha Hfail Hfire Hfuel. unfold Do. rewrite Hctx.
  destruct (Do_loop_attempts_exhausted w a d ltac:(lia) Hfail Hfire
              (Z.to_nat a - 1)%nat fuel 0%nat) as (tr & Hrun & Hcalls & Hwaits);
    [lia | lia |].
  exists tr. cbn [foldl]. change (Z.of_nat 0) with 0 in Hrun. rewrite Hrun.
  split; [reflexivity |]. split; [rewrite Hcalls; lia | exact Hwaits].
Qed.

Lemma Do_loop_unlimited (w : World) (d : Z) :
  (∀ i, is_Some (retryableFunc w i)) →
  (∀ i d', select_wait w i d' = AfterFired) →
  ∀ (fuel : nat) (n : Z) (i : nat),
    Do_loop fuel w (Delay d (Attempts 0 newDefaultRetryConfig)) n i = None.
Proof.
  intros Hfail Hfire. induction fuel as [| fuel IH]; intros n i; [reflexivity |].
  destruct (Hfail i) as [err Herr].
  cbn [Do_loop]. rewrite Herr. cbn. rewrite Hfire.
  change (Do_loop fuel w _ (uint64 (n + 1)) (S i))
    with (Do_loop fuel w (Delay d (Attempts 0 newDefaultRetryConfig)) (uint64 (n + 1)) (S i)).
  rewrite IH. reflexivity.
Qed.

(** X17: with [Attempts(0)] [Do] does not return while the operation fails
    and the context is not done. *)
Theorem Do_attempts_zero_never_gives_up (w : World) (d : Z) (fuel : nat) :
  ctx_Err w = None →
  (∀ i, is_Some (retryableFunc w i)) →
  (∀ i d', select_wait w i d' = AfterFired) →
  Do fuel w [Attempts 0; Delay d] = None.
Proof.
  intros Hctx Hfail Hfire. unfold Do. rewrite Hctx. cbn [foldl].
  apply Do_loop_unlimited; assumption.
Qed.

Lemma Do_loop_first_success (w : World) (a d : Z) (s : nat) :
  a = 0 ∨ Z.of_nat s < a < 2 ^ 64 →
  (∀ i, (i < s)%nat → is_Some (retryableFunc w i)) →
  retryableFunc w s = None →
  (∀ i d', select_wait w i d' = AfterFired) →
  ∀ (k : nat) (fuel : nat) (n : Z) (i : nat),
    (k < fuel)%nat → (i + k = s)%nat →
    a = 0 ∨ n = Z.of_nat i →
    ∃ tr, Do_loop fuel w (Delay d (Attempts a newDefaultRetryConfig)) n i = Some (None, tr) ∧
          call_count tr = S k ∧ wait_count tr = k.
Proof.
  intros Ha Hfail Hok Hfire.
  induction k as [| k IH]; intros fuel n i Hfuel Hsum Hn;
    (destruct fuel as [| fuel]; [lia |]).
  - replace i with s by lia.
    exists [Called (uint64 (n + 1))]. cbn [Do_loop]. rewrite Hok. repeat split; reflexivity.
  - destruct (Hfail i ltac:(lia)) as [err Herr].
    destruct (IH fuel (uint64 (n + 1)) (S i)) as (tr & Hrun & Hcalls & Hwaits); [lia | lia | |].
    { destruct Hn as [-> | ->]; [left; reflexivity |].
      destruct Ha as [-> | Ha]; [left; reflexivity | right].
      unfold uint64. rewrite Z.mod_small; lia. }
    exists (Called (uint64 (n + 1)) :: Waited (uint64 (n + 1)) d AfterFired :: tr).
    cbn [Do_loop]. rewrite Herr. cbn.
    replace (negb (a =? 0) && (uint64 (n + 1) >=? a)) with false.
    + cbn. rewrite Hfire.
      change (Do_loop fuel w _ (uint64 (n + 1)) (S i))
        with (Do_loop fuel w (Delay d (Attempts a newDefaultRetryConfig))
                      (uint64 (n + 1)) (S i)).
      rewrite Hrun. split; [reflexivity |]. split.
      * unfold call_count in *. cbn. rewrite Hcalls. reflexivity.
      * unfold wait_count in *. cbn. rewrite Hwaits. reflexivity.
    + symmetry. destruct Ha as [-> | Ha]; [reflexivity |].
      destruct Hn as [-> | ->]; [reflexivity |].
      apply andb_false_iff. right. rewrite Z.geb_leb. apply Z.leb_gt.
      unfold uint64. rewrite Z.mod_small; lia.
Qed.

(** X18: when the operation first succeeds at its call number [s+1] and
    the attempts are unlimited or more than [s], [Do] returns nil after
    exactly [s+1] calls and [s] waits. *)
Theorem Do_first_success (w : World) (a d : Z) (s fuel : nat) :
  ctx_Err w = None →
  a = 0 ∨ Z.of_nat s < a < 2 ^ 64 →
  (∀ i, (i < s)%nat → is_Some (retryableFunc w i)) →
  retryableFunc w s = None →
  (∀ i d', select_wait w i d' = AfterFired) →
  (s < fuel)%nat →
  ∃ tr, Do fuel w [Attempts a; Delay d] = Some (None, tr) ∧
        call_count tr = S s ∧ wait_count tr = s.
Proof.
  intros Hctx Ha Hfail Hok Hfire Hfuel. unfold Do. rewrite Hctx. cbn [foldl].
  apply (Do_loop_first_success w a d s Ha Hfail Hok Hfire s fuel 0 0%nat);
    [exact Hfuel | reflexivity | right; reflexivity].
Qed.

Lemma append_cons (c : Ascii.ascii) (s1 s2 : string) :
  String c s1 +:+ s2 = String c (s1 +:+ s2).
Proof. reflexivity. Qed.

Lemma append_assoc (s1 s2 s3 : string) : (s1 +:+ s2) +:+ s3 = s1 +:+ (s2 +:+ s3).
Proof.
  induction s1 as [| c s1 IH]; [reflexivity |].
  rewrite !append_cons, IH. reflexivity.
Qed.

Lemma append_eq_nil (s1 s2 : string) : s1 +:+ s2 = "" → s1 = "".
Proof. destruct s1; [reflexivity |]. rewrite append_cons. discriminate. Qed.

Lemma concat_cons_nonempty (sep a b : string) (l : list string) :
  String.concat sep (a :: b :: l) = a +:+ sep +:+ String.concat sep (b :: l).
Proof. reflexivity. Qed.

Lemma concat_snoc (sep d b : string) (l : list string) :
  String.concat sep ((b :: l) ++ [d]) = String.concat sep (b :: l) +:+ sep +:+ d.
Proof.
  revert b. induction l as [| c l IH]; intros b; [reflexivity |].
  change ((b :: c :: l) ++ [d]) with (b :: ((c :: l) ++ [d])).
  change ((c :: l) ++ [d]) with (c :: (l ++ [d])) at 1.
  rewrite concat_cons_nonempty.
  change (c :: l ++ [d]) with ((c :: l) ++ [d]).
  rewrite IH, concat_cons_nonempty, !append_assoc. reflexivity.
Qed.

Lemma concat_nonempty (sep b : string) (l : list string) :
  b ≠ "" → String.concat sep (b :: l) ≠ "".
Proof.
  intros Hb Hnil. destruct l as [| c l]; [exact (Hb Hnil) |].
  rewrite concat_cons_nonempty in Hnil. apply append_eq_nil in Hnil. exact (Hb Hnil).
Qed.

Lemma userAgent_fold (agents : list string) (o : b2Options) :
  userAgent o = "" →
  Forall (λ a, a ≠ "") agents →
  userAgent (foldl (λ o f, f o) o (UserAgent <$> agents)) = String.concat " " (rev agents).
Proof.
  intros Ho. induction agents as [| a rest IH] using rev_ind; intros Hne.
  - exact Ho.
  - apply Forall_app in Hne as [Hrest Ha]. specialize (IH Hrest).
    rewrite fmap_app, foldl_app, rev_app_distr. cbn [fmap list_fmap foldl rev app].
    unfold UserAgent at 1. cbn [userAgent]. rewrite IH.
    destruct (rev rest) as [| b tl] eqn:Hrev; [reflexivity |].
    assert (Hall : Forall (λ a, a ≠ "") (rev rest)) by (apply Forall_rev; exact Hrest).
    rewrite Hrev in Hall. apply Forall_cons in Hall as [Hb _].
    pose proof (concat_nonempty " " b tl Hb) as Hnz.
    apply String.eqb_neq in Hnz. rewrite Hnz. reflexivity.
Qed.

(** X19: [UserAgent] options with non-empty agents compose: the header
    value lists the agents from the last one set to the first, followed by
    the default agent, separated by single spaces. *)
Theorem UserAgent_options_compose (agents : list string) :
  Forall (λ a, a ≠ "") agents →
  getUserAgent (apply_AuthOptions (UserAgent <$> agents))
  = String.concat " " (rev agents ++ [DefaultUserAgent]).
Proof.
  intros Hne. unfold getUserAgent, apply_AuthOptions.
  rewrite userAgent_fold by (try reflexivity; exact Hne).
  assert (Hall : Forall (λ a, a ≠ "") (rev agents)) by (apply Forall_rev; exact Hne).
  destruct (rev agents) as [| b tl]; [reflexivity |].
  apply Forall_cons in Hall as [Hb _].
  pose proof (concat_nonempty " " b tl Hb) as Hnz.
  apply String.eqb_neq in Hnz. rewrite Hnz. cbn [negb].
  rewrite concat_snoc. reflexivity.
Qed.

(** X20: [millitime] hands [time.Unix] seconds and nanoseconds that
    denote exactly [t] milliseconds, with less than a second of
    nanoseconds, of the sign of [t]. *)
Theorem millitime_exact (t : Z) :
  let '(sec, nsec) := millitime t in
  sec * 1000000000 + nsec = t * 1000000 ∧
  Z.abs nsec < 1000000000 ∧
  (0 <= t → 0 <= nsec) ∧ (t <= 0 → nsec <= 0).
Proof.
  unfold millitime.
  pose proof (Z.quot_rem' t 1000) as Hqr.
  pose proof (Z.rem_bound_abs t 1000 ltac:(lia)) as Hb.
  assert (Hpos : 0 <= t → 0 <= Z.rem t 1000) by (intros; apply Z.rem_nonneg; lia).
  assert (Hneg : t <= 0 → Z.rem t 1000 <= 0) by (intros; apply Z.rem_nonpos; lia).
  repeat split; lia.
Qed.

Lemma prefix_append_l (a b s : string) :
  String.prefix (a +:+ b) s = true → String.prefix a s = true.
Proof.
  revert s. induction a as [| c a IH]; intros s H; [by destruct s |].
  rewrite append_cons in H. destruct s as [| c' s]; [discriminate H |].
  simpl in *. destruct (Ascii.ascii_dec c c'); [apply IH; exact H | discriminate H].
Qed.

Lemma prefix_append_same (a b : string) : String.prefix a (a +:+ b) = true.
Proof.
  induction a as [| c a IH]; [by destruct b |].
  rewrite append_cons. simpl. destruct (Ascii.ascii_dec c c); [exact IH | congruence].
Qed.

Lemma suffix_match_prefix (id name : string) (suffixes : list string) :
  suffix_match id name suffixes = true → String.prefix (id +:+ "-") name = true.
Proof.
  induction suffixes as [| suffix rest IH]; simpl; [discriminate |].
  destruct (String.eqb name (id +:+ "-" +:+ suffix)) eqn:Heq; [| exact IH].
  intros _. apply String.eqb_eq in Heq. subst name.
  rewrite <- append_assoc. apply prefix_append_same.
Qed.

(** X21: the names that the cleanup command selects are taken from the
    listed buckets in order and without repetition, each starts with the
    account id followed by a dash, and every listed bucket whose name starts
    with the test prefix of the account is selected. *)
Theorem kill_list_safe (id : string) (names : list string) :
  kill_list id names `sublist_of` names ∧
  (∀ name, name ∈ kill_list id names → String.prefix (id +:+ "-") name = true) ∧
  (∀ name, name ∈ names → String.prefix (id +:+ "-b2-tests-") name = true →
           name ∈ kill_list id names).
Proof.
  induction names as [| n rest (IHsub & IHsafe & IHall)]; cbn [kill_list].
  - split; [constructor |]. split; intros name Hin; inversion Hin.
  - destruct (String.prefix (id +:+ "-b2-tests-") n) eqn:Hpre;
      [| destruct (suffix_match id n bucketNameSuffixes) eqn:Hsuf].
    + split; [by apply sublist_skip |]. split.
      * intros name Hin. apply elem_of_cons in Hin as [-> | Hin]; [| by apply IHsafe].
        change (id +:+ "-b2-tests-") with (id +:+ "-" +:+ "b2-tests-") in Hpre.
        rewrite <- append_assoc in Hpre. exact (prefix_append_l _ _ _ Hpre).
      * intros name Hin Hp. apply elem_of_cons in Hin as [-> | Hin]; [left |].
        right. by apply IHall.
    + split; [by apply sublist_skip |]. split.
      * intros name Hin. apply elem_of_cons in Hin as [-> | Hin]; [| by apply IHsafe].
        exact (suffix_match_prefix _ _ _ Hsuf).
      * intros name Hin Hp. apply elem_of_cons in Hin as [-> | Hin]; [left |].
        right. by apply IHall.
    + split; [by apply sublist_cons |]. split; [exact IHsafe |].
      intros name Hin Hp. apply elem_of_cons in Hin as [-> | Hin]; [congruence |].
      by apply IHall.
Qed.

Ltac compute_entries :=
  match goal with
  | |- context [map_to_list ?m] =>
    let r := eval vm_compute in (map_to_list m) in change (map_to_list m) with r
  end.

Ltac compute_entries_in H :=
  match type of H with
  | context [map_to_list ?m] =>
    let r := eval vm_compute in (map_to_list m) in change (map_to_list m) with r in H
  end.

Lemma mkErr_Retry_After_witness :
  let resp := mk_Response 503 "7" "b2_upload_part" ([], None) in
  Action (Some (mkErr sample_ParseInt sample_Unmarshal resp)) = Retry ∧
  (7 * 1000000000 < 2 ^ 63 →
   Base.Backoff (Some (mkErr sample_ParseInt sample_Unmarshal resp)) = 7 * 1000000000).
Proof.
  intros resp.
  apply (mkErr_Retry_After sample_ParseInt sample_Unmarshal resp 7).
  - discriminate.
  - reflexivity.
  - lia.
Defined.

Lemma mkErr_ignores_bad_Retry_After_witness :
  let resp := mk_Response 503 "soon" "b2_upload_part" ([], None) in
  Base.Backoff (Some (mkErr sample_ParseInt sample_Unmarshal resp)) = 0 ∧
  (500 <= StatusCode resp < 600 →
   Blazer_Method resp = "b2_upload_file" ∨ Blazer_Method resp = "b2_upload_part" →
   Action (Some (mkErr sample_ParseInt sample_Unmarshal resp)) = AttemptNewUpload).
Proof.
  intros resp.
  apply (mkErr_ignores_bad_Retry_After sample_ParseInt sample_Unmarshal resp).
  right. discriminate.
Defined.

Lemma UploadParts_skips_failures_witness :
  let ok := mk_upload_call "aa" 10 1 (mk_transfer [] None) in
  let ko := mk_upload_call "bb" 20 2 (mk_transfer [] (Some (PlainError "reset"))) in
  UploadParts (StartLargeFile "4_z27c") [ko; ok; ko]
  = UploadParts (StartLargeFile "4_z27c") (List.filter succeeded [ko; ok; ko]).
Proof.
  intros ok ko.
  apply (UploadParts_skips_failures [ko; ok; ko] (StartLargeFile "4_z27c")).
  repeat constructor.
Defined.

Lemma UploadParts_last_write_wins_witness :
  let first := mk_upload_call "aa" 10 1 (mk_transfer [] None) in
  let again := mk_upload_call "bb" 12 1 (mk_transfer [] None) in
  UploadParts (StartLargeFile "4_z27c") [first; again]
  = Returned {| l_ID := "4_z27c"; l_size := 22; l_hashes := {[ 1 := "bb" ]} |}.
Proof.
  intros first again.
  rewrite (UploadParts_last_write_wins [first; again] (StartLargeFile "4_z27c")).
  - reflexivity.
  - vm_compute. split; congruence.
  - repeat constructor.
Defined.

Lemma CompileParts_resume_finish_witness :
  let f := mk_File "big" 0 "start" (0, 0) "4_z27c" in
  let seen : gmap Z string := {[ 1 := "aa" ]} in
  let cs := [mk_upload_call "cc" 30 3 (mk_transfer [] None);
             mk_upload_call "bb" 20 2 (mk_transfer [] None)] in
  ∃ l, UploadParts (CompileParts f 10 seen) cs = Returned l ∧ l_size l = 60.
Proof.
  intros f seen cs.
  destruct (CompileParts_resume_finish f 10 seen cs) as (l & Hrun & Hsize & _).
  - vm_compute. split; congruence.
  - intros k. change (size seen) with 1%nat. unfold seen.
    destruct (decide (k = 1)) as [-> | Hne].
    + rewrite lookup_singleton_eq. split; [lia | eauto].
    + rewrite lookup_singleton_ne by congruence. split; [intros [? ?]; discriminate | lia].
  - repeat constructor.
  - change (size seen) with 1%nat. change (seqZ _ _) with [2; 3]. apply perm_swap.
  - exists l. split; [exact Hrun |]. rewrite Hsize. reflexivity.
Defined.

Lemma FinishLargeFile_key_below_one_witness :
  let l := mk_LargeFile "4_z27c" 30 {[ 0 := "a"; 1 := "b" ]} in
  FinishLargeFile l [(1, "b"); (0, "a")]
    (λ _, (None, mk_FinishLargeFileResponse "" "" 0 "")) = (Panicked, []).
Proof.
  intros l.
  apply (FinishLargeFile_key_below_one l).
  - unfold iteration_order. compute_entries. first [reflexivity | apply perm_swap].
  - intros k [v Hkv]. apply elem_of_map_to_list in Hkv.
    compute_entries_in Hkv. change (size (l_hashes l)) with 2%nat.
    repeat (apply elem_of_cons in Hkv as [Hkv | Hkv]; [inversion Hkv; lia |]).
    inversion Hkv.
  - exists 0. split; [eexists; reflexivity | lia].
Defined.

Lemma FinishLargeFile_request_iff_dense_witness :
  let l := mk_LargeFile "4_z27c" 30 {[ 1 := "a"; 2 := "b" ]} in
  let send := λ _, (None, mk_FinishLargeFileResponse "" "" 0 "") in
  snd (FinishLargeFile l [(1, "a"); (2, "b")] send) = [] ↔ ¬ dense (l_hashes l).
Proof.
  intros l send.
  apply (FinishLargeFile_request_iff_dense l [(1, "a"); (2, "b")] send).
  - unfold iteration_order. compute_entries. first [reflexivity | apply perm_swap].
  - intros k [v Hkv]. apply elem_of_map_to_list in Hkv.
    compute_entries_in Hkv.
    repeat (apply elem_of_cons in Hkv as [Hkv | Hkv]; [inversion Hkv; lia |]).
    inversion Hkv.
Defined.

Lemma AsLargeFile_no_uploads_witness :
  let f := mk_File "big" 0 "start" (0, 0) "4_z27c" in
  UploadPartN (AsLargeFile f) "aa" 10 1 (mk_transfer [] None) = Panicked.
Proof.
  intros f.
  apply (proj1 (AsLargeFile_no_uploads f "aa" 10 1 (mk_transfer [] None) I)).
Defined.

Lemma Read_overrun_panics_witness :
  Read (new_keepFinalBytes 100) (sample_stream 200) 200 None = Panicked.
Proof.
  apply (Read_overrun_panics (new_keepFinalBytes 100) (sample_stream 200) 200 None);
    simpl; lia.
Defined.

Lemma UploadPart_deferred_hash_witness :
  let stream := sample_stream 45 in
  let t := mk_transfer (chunked 45 7 stream) None in
  UploadPart (StartLargeFile "4_z27c") "hex_digits_at_end" 45 1 t
  = Returned ((45, None),
              {| l_ID := "4_z27c"; l_size := 45;
                 l_hashes := {[ 1 := String.string_of_list_byte (final_40 stream) ]} |}).
Proof.
  intros stream t.
  apply (UploadPart_deferred_hash (StartLargeFile "4_z27c") stream 1 t).
  - vm_compute. reflexivity.
  - repeat constructor; vm_compute; congruence.
  - vm_compute. reflexivity.
  - reflexivity.
Defined.

Lemma Do_attempts_exhausted_witness :
  let w := mk_World None (λ i, Some (PlainError (pretty i))) (λ _ _, AfterFired) in
  ∃ tr, Do 3 w [Attempts 3; Delay 5] = Some (Some (PlainError "2"), tr) ∧
        call_count tr = 3%nat ∧ wait_count tr = 2%nat.
Proof.
  intros w.
  apply (Do_attempts_exhausted w 3 5 3).
  - reflexivity.
  - lia.
  - intros i. eexists. reflexivity.
  - reflexivity.
  - simpl. lia.
Defined.

Lemma Do_attempts_zero_never_gives_up_witness :
  Do 50 (mk_World None (λ _, Some (PlainError "down")) (λ _ _, AfterFired))
     [Attempts 0; Delay 5] = None.
Proof.
  apply (Do_attempts_zero_never_gives_up
           (mk_World None (λ _, Some (PlainError "down")) (λ _ _, AfterFired)) 5 50).
  - reflexivity.
  - intros i. eexists. reflexivity.
  - reflexivity.
Defined.

Lemma Do_first_success_witness :
  let w := mk_World None (λ i, if Nat.ltb i 2 then Some (PlainError "down") else None)
                    (λ _ _, AfterFired) in
  ∃ tr, Do 3 w [Attempts 0; Delay 5] = Some (None, tr) ∧
        call_count tr = 3%nat ∧ wait_count tr = 2%nat.
Proof.
  intros w.
  apply (Do_first_success w 0 5 2 3).
  - reflexivity.
  - left. reflexivity.
  - intros i Hi. destruct i as [| [| i]]; [eexists; reflexivity | eexists; reflexivity | lia].
  - reflexivity.
  - reflexivity.
  - lia.
Defined.

Lemma UserAgent_options_compose_witness :
  getUserAgent (apply_AuthOptions (UserAgent <$> ["restic/0.16"; "rclone"]))
  = "rclone restic/0.16 blazer/0.7.2".
Proof.
  apply (UserAgent_options_compose ["restic/0.16"; "rclone"]).
  repeat constructor; discriminate.
Defined.

Lemma millitime_exact_witness :
  let '(sec, nsec) := millitime (-1500) in
  sec * 1000000000 + nsec = -1500 * 1000000 ∧
  Z.abs nsec < 1000000000 ∧
  (0 <= -1500 → 0 <= nsec) ∧ (-1500 <= 0 → nsec <= 0).
Proof. apply (millitime_exact (-1500)). Defined.

Lemma kill_list_safe_witness :
  let names := ["acct-b2-tests-x"; "acct-photos"; "other-base-tests"; "acct-base-tests"] in
  kill_list "acct" names `sublist_of` names ∧
  (∀ name, name ∈ kill_list "acct" names → String.prefix ("acct" +:+ "-") name = true) ∧
  (∀ name, name ∈ names → String.prefix ("acct" +:+ "-b2-tests-") name = true →
           name ∈ kill_list "acct" names).
Proof. intros names. apply (kill_list_safe "acct" names). Defined.

Example kill_list_sample :
  kill_list "acct" ["acct-b2-tests-x"; "acct-photos"; "other-base-tests"; "acct-base-tests"]
  = ["acct-b2-tests-x"; "acct-base-tests"].
Proof. reflexivity. Qed.
